(** * extranet: spatial matching, label generation and the inference manager

    A shallow embedding of
      - [exconvnet/des_data/processing_utils.py]  (module [ProcessingUtils]),
      - [exconvnet/des_data/fetcher.py]           (module [Fetcher]),
      - [n2j/inference/inference_manager.py]      (module [Inference]),
    together with the properties of these programs that the specification
    states.

    Conventions.  A numpy [float64] is a binary64 primitive float.  A Python
    call that may raise is a function into [result]; the exception classes
    that the modelled code can raise are the constructors of [exn]. *)

From Stdlib Require Import List ZArith Lia Bool Ascii String DecimalString Permutation.
From Stdlib Require Import Floats.PrimFloat.
From Stdlib Require Numbers.Cyclic.Int63.Uint63.
From Stdlib Require Floats.FloatAxioms Sorting.Sorted.
From stdpp Require Import gmap strings.
Import ListNotations.

Set Default Proof Using "Type".
Set Warnings "-inexact-float".
Local Open Scope nat_scope.

(** ** Python exceptions and fallible computations *)

Inductive exn : Type :=
  | IndexError
  | TypeError
  | ValueError
  | RuntimeError
  | FileNotFoundError
  | FileExistsError
  | NotADirectoryError
  | IsADirectoryError
  | NameError (name : string)
  | UnboundLocalError (name : string).

(** [UnboundLocalError] is a subclass of [NameError] in Python. *)
Definition isinstance_NameError (e : exn) : bool :=
  match e with
  | NameError _ | UnboundLocalError _ => true
  | _ => false
  end.

Inductive result (A : Type) : Type :=
  | Ok (a : A)
  | Raise (e : exn).
Arguments Ok {A} a.
Arguments Raise {A} e.

Definition bind {A B} (m : result A) (k : A -> result B) : result B :=
  match m with
  | Ok a => k a
  | Raise e => Raise e
  end.

Notation "x <- m ;; k" := (bind m (fun x => k))
  (at level 100, m at next level, right associativity).

(** A local variable is bound ([Some]) once an assignment to it has run. *)
Definition assigned {A} (m : result A) : result (option A) :=
  match m with Ok a => Ok (Some a) | Raise e => Raise e end.

Definition returns {A} (m : result A) : bool :=
  match m with Ok _ => true | Raise _ => false end.

(** A list comprehension whose body may raise: the first exception wins. *)
Fixpoint comprehension {A B} (f : A -> result B) (l : list A) : result (list B) :=
  match l with
  | [] => Ok []
  | a :: l' => b <- f a ;; bs <- comprehension f l' ;; Ok (b :: bs)
  end.

(** ** Paths and formatting *)

(** os.path.join(dir, name) for a relative [name]. *)
Definition ends_with_slash (s : string) : bool :=
  match String.get (String.length s - 1) s with
  | Some c => Ascii.eqb c "/"%char
  | None => false
  end.

Definition path_prefix (dir : string) : string :=
  if String.eqb dir EmptyString then EmptyString
  else if ends_with_slash dir then dir
  else (dir ++ "/")%string.

Definition path_join (dir name : string) : string :=
  (path_prefix dir ++ name)%string.

Definition str_of_nat (n : nat) : string :=
  DecimalString.NilZero.string_of_uint (Nat.to_uint n).

Definition str_of_N (n : N) : string :=
  DecimalString.NilZero.string_of_uint (N.to_uint n).

(** ** numpy scalars *)

Definition float_of_nat (n : nat) : float := of_uint63 (Uint63.of_Z (Z.of_nat n)).

(** [numpy.sum] of a one-dimensional float64 array.  The reduction starts
    from the identity [0.0] and adds numpy's pairwise sum of the elements
    ([DOUBLE_pairwise_sum] in [loops_utils.h.src]): fewer than eight
    elements are added up from left to right; up to [PW_BLOCKSIZE] elements
    are accumulated in eight lanes, which are then combined as a balanced
    tree, the elements after the last full group of eight being added at
    the end; a longer array is split in two, at a multiple of eight. *)

(** [res += a[i]] for the elements of [a], in order. *)
Definition add_up (res : float) (a : list float) : float :=
  fold_left PrimFloat.add a res.

Definition PW_BLOCKSIZE : nat := 128.

(** [r[j] += a[i + j]] for [j] in [0..8), over [blocks] consecutive groups
    of eight elements of [a]. *)
Fixpoint add_blocks (r a : list float) (blocks : nat) : list float :=
  match blocks with
  | 0 => r
  | S k =>
      add_blocks (List.map (fun p => (fst p + snd p)%float) (combine r (firstn 8 a)))
                 (skipn 8 a) k
  end.

Definition unrolled_sum (a : list float) : float :=
  let n := length a in
  let r := add_blocks (firstn 8 a) (skipn 8 a) (n / 8 - 1) in
  let r_ j := nth j r 0%float in
  let res := (((r_ 0%nat + r_ 1%nat) + (r_ 2%nat + r_ 3%nat))
              + ((r_ 4%nat + r_ 5%nat) + (r_ 6%nat + r_ 7%nat)))%float in
  add_up res (skipn (n - n mod 8) a).

(** [depth] bounds the number of nested splits; the length of the array is
    always enough ([pairwise_sum_depth]). *)
Fixpoint pairwise_sum (depth : nat) (a : list float) : float :=
  let n := length a in
  if n <? 8 then add_up 0 a
  else if n <=? PW_BLOCKSIZE then unrolled_sum a
  else match depth with
       | 0 => unrolled_sum a
       | S d =>
           let n2 := n / 2 - (n / 2) mod 8 in
           (pairwise_sum d (firstn n2 a) + pairwise_sum d (skipn n2 a))%float
       end.

Definition np_sum (l : list float) : float := (0 + pairwise_sum (length l) l)%float.

(** [numpy.mean]: the sum divided by the number of elements.  On an empty
    input this is [0.0 / 0], which numpy reports with a RuntimeWarning and
    returns as NaN, without raising. *)
Definition np_mean (l : list float) : float :=
  (np_sum l / float_of_nat (length l))%float.

(** *** Sums in floating point

    [float_sum l s]: [s] is obtained by adding up the numbers of [l], each
    of them once, in some order and grouping, a sum of no numbers being
    zero.  Every way of summing a float64 array is of this kind; the
    results differ by rounding. *)
Inductive float_sum : list float -> float -> Prop :=
  | sum_nil : float_sum [] 0%float
  | sum_one x : float_sum [x] x
  | sum_add l1 l2 s1 s2 :
      float_sum l1 s1 -> float_sum l2 s2 -> float_sum (l1 ++ l2) (s1 + s2)%float
  | sum_perm l l' s : Permutation l l' -> float_sum l s -> float_sum l' s.

(** The bound on the nesting is never reached. *)
Lemma pairwise_sum_depth d1 : forall d2 a,
  length a <= d1 -> length a <= d2 -> pairwise_sum d1 a = pairwise_sum d2 a.
Proof.
  induction d1 as [|d1 IH]; intros d2 a H1 H2.
  - destruct a; [|simpl in H1; lia]. destruct d2; reflexivity.
  - destruct d2 as [|d2].
    { destruct a; [reflexivity|simpl in H2; lia]. }
    cbn [pairwise_sum].
    destruct (length a <? 8) eqn:E8; [reflexivity|].
    destruct (length a <=? PW_BLOCKSIZE) eqn:Eb; [reflexivity|].
    apply Nat.ltb_ge in E8. apply Nat.leb_gt in Eb. unfold PW_BLOCKSIZE in Eb.
    set (n := length a) in *.
    assert (Hn2 : 0 < n / 2 - (n / 2) mod 8 < n).
    { pose proof (Nat.mod_upper_bound (n / 2) 8 ltac:(lia)).
      pose proof (Nat.Div0.mul_div_le n 2).
      assert (64 <= n / 2) by (apply Nat.div_le_lower_bound; lia). lia. }
    f_equal; apply IH; rewrite ?length_firstn, ?length_skipn; fold n; lia.
Qed.

Lemma add_up_sum l0 res a : float_sum l0 res -> float_sum (l0 ++ a) (add_up res a).
Proof.
  revert l0 res. induction a as [|x a IH]; intros l0 res H; simpl.
  - now rewrite app_nil_r.
  - replace (l0 ++ x :: a) with ((l0 ++ [x]) ++ a) by now rewrite <- app_assoc.
    apply IH. apply sum_add; [exact H|apply sum_one].
Qed.

(** The accumulators [rs] hold sums of the lanes [Ls]. *)
Lemma add_block_sum (Ls : list (list float)) (rs c : list float) :
  Forall2 float_sum Ls rs -> length c = length rs ->
  exists Ls',
    Forall2 float_sum Ls' (List.map (fun p => (fst p + snd p)%float) (combine rs c))
    /\ Permutation (concat Ls') (concat Ls ++ c).
Proof.
  intros H. revert c. induction H as [|L r Ls rs HL _ IH]; intros c Hc.
  - destruct c; [|discriminate]. exists []. split; constructor.
  - destruct c as [|x c]; [discriminate|]. simpl in Hc.
    destruct (IH c ltac:(lia)) as (Ls' & HF & HP).
    exists ((L ++ [x]) :: Ls'). split.
    + simpl. constructor; [|exact HF]. apply sum_add; [exact HL|apply sum_one].
    + simpl. rewrite HP. rewrite <- !app_assoc. apply Permutation_app_head.
      simpl. rewrite (Permutation_app_comm (concat Ls) (x :: c)). simpl.
      constructor. apply Permutation_app_comm.
Qed.

Lemma add_blocks_sum k : forall (Ls : list (list float)) (r a : list float),
  Forall2 float_sum Ls r -> length r = 8 -> 8 * k <= length a ->
  exists Ls',
    Forall2 float_sum Ls' (add_blocks r a k)
    /\ length (add_blocks r a k) = 8
    /\ Permutation (concat Ls') (concat Ls ++ firstn (8 * k) a).
Proof.
  induction k as [|k IH]; intros Ls r a HF Hr Ha.
  - exists Ls. simpl. rewrite app_nil_r. auto.
  - cbn [add_blocks].
    destruct (add_block_sum Ls r (firstn 8 a) HF) as (Ls1 & HF1 & HP1).
    { rewrite length_firstn. lia. }
    destruct (IH Ls1 _ (skipn 8 a) HF1) as (Ls2 & HF2 & Hlen & HP2).
    { rewrite length_map, length_combine, length_firstn. lia. }
    { rewrite length_skipn. lia. }
    exists Ls2. split; [exact HF2|split; [exact Hlen|]].
    rewrite HP2, HP1, <- app_assoc. apply Permutation_app_head.
    replace (8 * S k) with (8 + 8 * k) by lia.
    rewrite <- (firstn_skipn 8 a) at 3.
    rewrite firstn_app, length_firstn, Nat.min_l by lia.
    rewrite firstn_firstn, Nat.min_r by lia.
    replace (8 + 8 * k - 8) with (8 * k) by lia. reflexivity.
Qed.

Lemma unrolled_sum_is_sum a : 8 <= length a -> float_sum a (unrolled_sum a).
Proof.
  intros Hn. unfold unrolled_sum. set (n := length a) in *.
  assert (Hdiv : n = 8 * (n / 8) + n mod 8) by (apply Nat.div_mod_eq).
  assert (Hq : 1 <= n / 8) by (apply Nat.div_le_lower_bound; lia).
  destruct (add_blocks_sum (n / 8 - 1) (List.map (fun x => [x]) (firstn 8 a))
              (firstn 8 a) (skipn 8 a)) as (Ls & HF & Hlen & HP).
  { clear. induction (firstn 8 a); simpl; constructor; auto. apply sum_one. }
  { rewrite length_firstn. fold n. lia. }
  { rewrite length_skipn. fold n. lia. }
  set (r := add_blocks (firstn 8 a) (skipn 8 a) (n / 8 - 1)) in *.
  assert (Hcat : concat (List.map (fun x : float => [x]) (firstn 8 a)) = firstn 8 a).
  { clear. induction (firstn 8 a) as [|x l IH]; simpl; [reflexivity|now rewrite IH]. }
  rewrite Hcat in HP.
  assert (Hdone : firstn 8 a ++ firstn (8 * (n / 8 - 1)) (skipn 8 a)
                  = firstn (n - n mod 8) a).
  { replace (n - n mod 8) with (8 + 8 * (n / 8 - 1)) by lia.
    rewrite <- (firstn_skipn 8 a) at 3.
    rewrite firstn_app, length_firstn, Nat.min_l by (fold n; lia).
    rewrite firstn_firstn, Nat.min_r by lia.
    replace (8 + 8 * (n / 8 - 1) - 8) with (8 * (n / 8 - 1)) by lia. reflexivity. }
  rewrite Hdone in HP.
  apply sum_perm with (l := concat Ls ++ skipn (n - n mod 8) a).
  { rewrite HP. now rewrite firstn_skipn. }
  apply add_up_sum.
  destruct r as [|r0 [|r1 [|r2 [|r3 [|r4 [|r5 [|r6 [|r7 [|]]]]]]]]]; try discriminate.
  inversion HF as [|L0 ? Ls0 ? S0 HF0]; subst.
  inversion HF0 as [|L1 ? Ls1 ? S1 HF1]; subst.
  inversion HF1 as [|L2 ? Ls2 ? S2 HF2]; subst.
  inversion HF2 as [|L3 ? Ls3 ? S3 HF3]; subst.
  inversion HF3 as [|L4 ? Ls4 ? S4 HF4]; subst.
  inversion HF4 as [|L5 ? Ls5 ? S5 HF5]; subst.
  inversion HF5 as [|L6 ? Ls6 ? S6 HF6]; subst.
  inversion HF6 as [|L7 ? Ls7 ? S7 HF7]; subst.
  inversion HF7; subst.
  cbn [nth concat]. rewrite app_nil_r.
  replace (L0 ++ L1 ++ L2 ++ L3 ++ L4 ++ L5 ++ L6 ++ L7)
    with (((L0 ++ L1) ++ (L2 ++ L3)) ++ ((L4 ++ L5) ++ (L6 ++ L7)))
    by (now rewrite <- !app_assoc).
  repeat apply sum_add; assumption.
Qed.

Lemma pairwise_sum_is_sum d : forall a, float_sum a (pairwise_sum d a).
Proof.
  induction d as [|d IH]; intros a; cbn [pairwise_sum].
  - destruct (length a <? 8) eqn:E8.
    + apply (add_up_sum [] 0%float a sum_nil).
    + apply Nat.ltb_ge in E8.
      destruct (length a <=? PW_BLOCKSIZE); now apply unrolled_sum_is_sum.
  - destruct (length a <? 8) eqn:E8.
    + apply (add_up_sum [] 0%float a sum_nil).
    + apply Nat.ltb_ge in E8.
      destruct (length a <=? PW_BLOCKSIZE); [now apply unrolled_sum_is_sum|].
      set (n2 := length a / 2 - (length a / 2) mod 8).
      rewrite <- (firstn_skipn n2 a) at 1. apply sum_add; apply IH.
Qed.

(** [numpy.sum] adds up the elements. *)
Lemma np_sum_is_sum l : float_sum l (np_sum l).
Proof. apply (sum_add [] l _ _ sum_nil (pairwise_sum_is_sum _ l)). Qed.

(** Below eight elements the sum runs from left to right. *)
Lemma np_sum_short l : length l < 8 -> np_sum l = (0 + fold_left PrimFloat.add l 0)%float.
Proof.
  intros H. unfold np_sum. destruct l as [|x l]; [reflexivity|].
  cbn [length pairwise_sum]. apply Nat.ltb_lt in H. cbn [length] in H. now rewrite H.
Qed.

(** From eight elements on, the grouping shows: the ones are absorbed one
    by one when added to [10^16] from left to right, and survive in their
    own lanes. *)
Example np_sum_is_pairwise :
  np_sum [10000000000000000; 1; 1; 1; 1; 1; 1; 1; 1]%float = 10000000000000008%float
  /\ fold_left PrimFloat.add [10000000000000000; 1; 1; 1; 1; 1; 1; 1; 1]%float 0%float
     = 10000000000000000%float.
Proof. split; reflexivity. Qed.

(* ================================================================== *)
(** * exconvnet/des_data/processing_utils.py *)
(* ================================================================== *)

Module ProcessingUtils.

(** A catalog object is one row of the raw DES array; [obj[i]] is its
    [i]-th column.  Column 1 is the right ascension, column 2 the
    declination and column 39 is MAG_AUTO_G. *)
Definition CatalogObject := list float.

Definition getitem (obj : CatalogObject) (i : nat) : result float :=
  match nth_error obj i with
  | Some v => Ok v
  | None => Raise IndexError
  end.

(** [ylabel(x, IDX=39)]: the parameter is overwritten by the assignment
    [IDX = 39] before it is read. *)
Definition ylabel (x : list CatalogObject) (IDX : nat) : result float :=
  let IDX := 39 in
  vals <- comprehension (fun obj => getitem obj IDX) x ;;
  Ok (np_mean vals / 1000)%float.

Definition gen_labels (X : list (list CatalogObject)) : result (list float) :=
  comprehension (fun x => ylabel x 39) X.

Definition strip2RAdec (arr : list CatalogObject) : result (list (float * float)) :=
  comprehension (fun x => ra <- getitem x 1 ;; dec <- getitem x 2 ;; Ok (ra, dec)) arr.

(** *** scipy.spatial.KDTree

    The tree keeps the points it was built from ([data]) and their
    positions in the order of its leaves ([indices]).  A single-point
    [query_ball_point(x, r)] refuses a point that is not finite with
    ValueError; otherwise it walks the leaves from left to right and
    reports, unsorted, the positions of the points at distance at most [r]
    from [x]; the test compares the squared distance with [r * r]. *)
Record KDTree := { data : list (float * float); indices : list nat }.

Definition Sightline := (float * float)%type.

Definition finite_point (p : float * float) : bool :=
  is_finite (fst p) && is_finite (snd p).

Definition sqdist (p q : float * float) : float :=
  ((fst p - fst q) * (fst p - fst q) + (snd p - snd q) * (snd p - snd q))%float.

Definition in_ball (center : Sightline) (r : float) (p : float * float) : bool :=
  (sqdist p center <=? r * r)%float.

Definition query_ball_point (tree : KDTree) (x : Sightline) (r : float)
  : result (list nat) :=
  if finite_point x then
    Ok (List.filter
          (fun i => match nth_error (data tree) i with
                    | Some p => in_ball x r p
                    | None => false
                    end)
          (indices tree))
  else Raise ValueError.

(** [arr[idx]] for a list of positions. *)
Definition take_rows {A} (arr : list A) (idx : list nat) : result (list A) :=
  comprehension
    (fun i => match nth_error arr i with
              | Some a => Ok a
              | None => Raise IndexError
              end) idx.

(** [numpy.array(object, dtype)]: the second positional parameter is the
    dtype.  A float64 scalar in that position is resolved through its
    [dtype] attribute to float64, so the result is the zero-dimensional
    float64 array holding [object]. *)
Definition np_array0 (object dtype : float) : float := object.

(** [numpy.linalg.norm] of a zero-dimensional array [a]: [sqrt(a . a)]. *)
Definition linalg_norm0 (a : float) : float := PrimFloat.sqrt (a * a)%float.

(** The sort key of [get_x_i]:
    [np.linalg.norm(np.array(x[1] - sightline[0], x[2] - sightline[1]))]. *)
Definition sort_key (sightline : Sightline) (x : CatalogObject) : result float :=
  x1 <- getitem x 1 ;;
  x2 <- getitem x 2 ;;
  Ok (linalg_norm0 (np_array0 (x1 - fst sightline) (x2 - snd sightline))%float).

(** Python's [sorted] is stable and compares keys with [<] only. *)
Fixpoint insert_by_key {A} (kx : float * A) (l : list (float * A)) : list (float * A) :=
  match l with
  | [] => [kx]
  | ky :: l' =>
      if (fst ky <? fst kx)%float then ky :: insert_by_key kx l'
      else kx :: ky :: l'
  end.

Definition sort_keyed {A} (l : list (float * A)) : list (float * A) :=
  fold_right insert_by_key [] l.

Definition sorted {A} (key : A -> result float) (l : list A) : result (list A) :=
  keys <- comprehension (fun x => k <- key x ;; Ok (k, x)) l ;;
  Ok (List.map snd (sort_keyed keys)).

Definition THRESHOLD_default : float := 0.0333333333%float.

Definition get_x_i (sightline : Sightline) (tree : KDTree)
    (arr : list CatalogObject) (THRESHOLD : float) : result (list CatalogObject) :=
  idx <- query_ball_point tree sightline THRESHOLD ;;
  x_i <- take_rows arr idx ;;
  x_i <- sorted (sort_key sightline) x_i ;;
  Ok x_i.

(** [compute_X]; [KDTree_build] is scipy's constructor [KDTree(coords)],
    which raises ValueError when it is given no points. *)
Definition compute_X (KDTree_build : list (float * float) -> result KDTree)
    (arr : list CatalogObject) (sightlines : list Sightline)
  : result (list (list CatalogObject)) :=
  coords <- strip2RAdec arr ;;
  tree <- KDTree_build coords ;;
  comprehension (fun sightline => get_x_i sightline tree arr THRESHOLD_default)
                sightlines.

(** ** Properties of [ylabel] *)

Definition feature (i : nat) (obj : CatalogObject) : float := nth i obj nan.

Definition has_feature (i : nat) (obj : CatalogObject) : Prop := i < length obj.

(** The label the specification describes: a mean of feature 39 over the
    objects of the example, that is, the values of that column added up
    and divided by their number, divided by 1000. *)
Definition mean_feature_label (x : list CatalogObject) (y : float) : Prop :=
  exists s, float_sum (List.map (feature 39) x) s
            /\ y = (s / float_of_nat (length x) / 1000)%float.

Lemma getitem_feature obj i : has_feature i obj -> getitem obj i = Ok (feature i obj).
Proof.
  unfold has_feature, getitem, feature; intros H.
  destruct (nth_error obj i) as [v|] eqn:E.
  - now rewrite (nth_error_nth _ _ _ E).
  - apply nth_error_None in E; lia.
Qed.

Lemma features_of_example i x :
  Forall (has_feature i) x ->
  comprehension (fun obj => getitem obj i) x = Ok (List.map (feature i) x).
Proof.
  induction 1 as [|obj x Hobj _ IH]; simpl; [reflexivity|].
  now rewrite (getitem_feature _ _ Hobj), IH.
Qed.

Lemma getitem_short obj i : length obj <= i -> getitem obj i = Raise IndexError.
Proof.
  intros H. unfold getitem.
  destruct (nth_error obj i) eqn:E; [|reflexivity].
  assert (i < length obj) by (apply nth_error_Some; congruence). lia.
Qed.

Lemma getitem_raises_IndexError obj i e : getitem obj i = Raise e -> e = IndexError.
Proof. unfold getitem. destruct (nth_error obj i); [discriminate|]. now inversion 1. Qed.

(** Reading column [i] of every object either gives the column or stops
    with IndexError at an object that is too short. *)
Lemma column_or_short i x :
  match comprehension (fun obj => getitem obj i) x with
  | Ok vals => Forall (has_feature i) x /\ vals = List.map (feature i) x
  | Raise e => e = IndexError /\ Exists (fun obj => length obj <= i) x
  end.
Proof.
  induction x as [|obj x IH]; simpl; [split; [constructor|reflexivity]|].
  destruct (Nat.lt_ge_cases i (length obj)) as [Hlt|Hge].
  - rewrite (getitem_feature obj i Hlt). simpl.
    destruct (comprehension _ x) as [vals|e]; simpl.
    + destruct IH as [Hall ->]. split; [now constructor|reflexivity].
    + destruct IH as [-> Hex]. split; [reflexivity|now apply Exists_cons_tl].
  - rewrite (getitem_short obj i Hge). simpl.
    split; [reflexivity|now apply Exists_cons_hd].
Qed.

(** The mean of [numpy.mean], divided by 1000, is a mean label. *)
Lemma np_mean_label x :
  mean_feature_label x (np_mean (List.map (feature 39) x) / 1000)%float.
Proof.
  exists (np_sum (List.map (feature 39) x)). split; [apply np_sum_is_sum|].
  unfold np_mean. now rewrite length_map.
Qed.

Lemma ylabel_ignores_IDX x IDX IDX' : ylabel x IDX = ylabel x IDX'.
Proof. reflexivity. Qed.

(** C7.  Whatever [IDX] the caller passes, [ylabel] reads column 39: it
    returns exactly when every object of the example carries that column,
    and what it returns is the mean of that column divided by 1000; with
    an object that is too short it raises IndexError. *)
Theorem ylabel_fixed_feature (x : list CatalogObject) (IDX : nat) :
  ylabel x IDX = ylabel x 39
  /\ match ylabel x IDX with
     | Ok y => Forall (has_feature 39) x /\ mean_feature_label x y
     | Raise e => e = IndexError /\ Exists (fun obj => length obj <= 39) x
     end.
Proof.
  split; [reflexivity|]. unfold ylabel.
  pose proof (column_or_short 39 x) as H.
  destruct (comprehension (fun obj => getitem obj 39) x) as [vals|e]; cbn [bind].
  - destruct H as [Hall ->]. split; [exact Hall|apply np_mean_label].
  - exact H.
Qed.

Definition row_with (i : nat) (v : float) (width : nat) : CatalogObject :=
  repeat 0%float i ++ v :: repeat 0%float (width - i - 1).

Definition two_objects : list CatalogObject :=
  [row_with 39 21500%float 45; row_with 39 22500%float 45].

(** Nine objects whose magnitudes are [10^16] and eight times [1]: added
    from left to right the ones would be lost one by one; in numpy's lanes
    they add up to eight. *)
Definition nine_objects : list CatalogObject :=
  row_with 39 10000000000000000%float 45 :: repeat (row_with 39 1%float 45) 8.

Lemma ylabel_fixed_feature_witness :
  (ylabel two_objects 7 = ylabel two_objects 39)
  /\ Forall (has_feature 39) two_objects
  /\ mean_feature_label two_objects 22%float.
Proof. exact (ylabel_fixed_feature two_objects 7). Defined.

Example ylabel_two_objects :
  ylabel two_objects 7 = Ok 22%float /\ ylabel two_objects 39 = Ok 22%float.
Proof. split; reflexivity. Qed.

Example ylabel_nine_objects :
  ylabel nine_objects 39 = Ok ((10000000000000008 / 9) / 1000)%float
  /\ ((10000000000000008 / 9) / 1000 =? (10000000000000000 / 9) / 1000)%float = false.
Proof. vm_compute. split; reflexivity. Qed.

(** C5, as the code has it.  On an empty example [ylabel] raises nothing:
    the mean over zero elements is NaN and so is the label. *)
Theorem ylabel_empty_is_nan (IDX : nat) : ylabel [] IDX = Ok nan.
Proof. reflexivity. Qed.

(** The empty example under the default [IDX]: a value comes back, no
    exception. *)
Lemma ylabel_empty_returns :
  ylabel [] 39 = Ok nan /\ returns (ylabel [] 39) = true.
Proof. split; reflexivity. Qed.

(** ** Properties of [get_x_i] *)

Lemma insert_by_key_perm {A} (kx : float * A) l :
  Permutation (kx :: l) (insert_by_key kx l).
Proof.
  induction l as [|ky l IH]; simpl; [reflexivity|].
  destruct (fst ky <? fst kx)%float; [|reflexivity].
  rewrite perm_swap. now constructor.
Qed.

Lemma sort_keyed_perm {A} (l : list (float * A)) : Permutation l (sort_keyed l).
Proof.
  induction l as [|kx l IH]; simpl; [reflexivity|].
  rewrite <- insert_by_key_perm. now constructor.
Qed.

Lemma sorted_perm {A} (key : A -> result float) l :
  Forall (fun x => returns (key x) = true) l ->
  exists l', sorted key l = Ok l' /\ Permutation l l'.
Proof.
  intros Hk. unfold sorted.
  assert (exists keys, comprehension (fun x => k <- key x ;; Ok (k, x)) l = Ok keys
                       /\ List.map snd keys = l) as (keys & -> & Hsnd).
  { induction Hk as [|x l Hx _ (keys & Hkeys & Hsnd)]; simpl.
    - now exists [].
    - destruct (key x) as [k|]; [|discriminate]; simpl.
      rewrite Hkeys; simpl.
      exists ((k, x) :: keys); simpl. now rewrite Hsnd. }
  simpl. eexists; split; [reflexivity|].
  rewrite <- Hsnd at 1. apply Permutation_map, sort_keyed_perm.
Qed.

Lemma comprehension_length {A B} (f : A -> result B) l bs :
  comprehension f l = Ok bs -> length bs = length l.
Proof.
  revert bs; induction l as [|a l IH]; simpl; intros bs H.
  - now inversion H.
  - destruct (f a) as [b|e]; simpl in H; [|discriminate].
    destruct (comprehension f l) as [bs'|e]; simpl in H; [|discriminate].
    inversion H; subst; simpl. now rewrite (IH bs').
Qed.

Lemma comprehension_nth {A B} (f : A -> result B) l bs i a :
  comprehension f l = Ok bs -> nth_error l i = Some a ->
  exists b, nth_error bs i = Some b /\ f a = Ok b.
Proof.
  revert bs i; induction l as [|a0 l IH]; intros bs i H Hi.
  - now destruct i.
  - simpl in H. destruct (f a0) as [b0|] eqn:E0; [|discriminate]; simpl in H.
    destruct (comprehension f l) as [bs'|] eqn:E; [|discriminate]; simpl in H.
    inversion H; subst; clear H.
    destruct i as [|i]; simpl in *.
    + inversion Hi; subst. now exists b0.
    + now apply IH.
Qed.

Lemma comprehension_raises {A B} (f : A -> result B) (e0 : exn) l :
  (forall a e, f a = Raise e -> e = e0) ->
  Exists (fun a => returns (f a) = false) l ->
  comprehension f l = Raise e0.
Proof.
  intros Hf. induction 1 as [a l Ha | a l _ IH]; simpl.
  - destruct (f a) as [b|e] eqn:E; [discriminate|]. simpl. f_equal. eauto.
  - destruct (f a) as [b|e] eqn:E; simpl; [now rewrite IH | f_equal; eauto].
Qed.

(** A comprehension that raises, raises what its body raised at some
    element. *)
Lemma comprehension_Raise {A B} (f : A -> result B) l e :
  comprehension f l = Raise e -> Exists (fun a => f a = Raise e) l.
Proof.
  induction l as [|a l IH]; simpl; [discriminate|].
  destruct (f a) as [b|e'] eqn:E; simpl.
  - destruct (comprehension f l) as [bs|e'']; simpl; [discriminate|].
    intros H; inversion H; subst. apply Exists_cons_tl. now apply IH.
  - intros H; inversion H; subst. now apply Exists_cons_hd.
Qed.

Lemma take_rows_ok {A} (arr : list A) idx :
  Forall (fun i => i < length arr) idx ->
  exists rows, take_rows arr idx = Ok rows
               /\ Forall (fun x => exists i, In i idx /\ nth_error arr i = Some x) rows.
Proof.
  unfold take_rows.
  induction 1 as [|i idx Hi _ (rows & Hr & Hrows)]; simpl.
  - now exists [].
  - destruct (nth_error arr i) as [a|] eqn:E.
    + simpl. rewrite Hr; simpl. exists (a :: rows); split; [reflexivity|]. constructor.
      * exists i; auto.
      * eapply List.Forall_impl; [|exact Hrows]. intros x (j & Hj & Hx). exists j; auto.
    + apply nth_error_None in E; lia.
Qed.

(** The rows that were taken are the rows at the given positions. *)
Lemma take_rows_map {A} (d : A) (arr : list A) idx rows :
  take_rows arr idx = Ok rows -> rows = List.map (fun i => nth i arr d) idx.
Proof.
  unfold take_rows. revert rows. induction idx as [|i idx IH]; simpl; intros rows H.
  - now inversion H.
  - destruct (nth_error arr i) as [a|] eqn:E; [|discriminate]. simpl in H.
    destruct (comprehension _ idx) as [rows'|]; [|discriminate]. simpl in H.
    inversion H; subst. f_equal; [|now apply IH].
    symmetry. now apply nth_error_nth.
Qed.

(** The tree was built, as [compute_X] builds it, over the coordinates of
    [arr], and indexes positions of [arr]. *)
Definition built_from (tree : KDTree) (arr : list CatalogObject) : Prop :=
  strip2RAdec arr = Ok (data tree)
  /\ Forall (fun i => i < length (data tree)) (indices tree).

(** The distance test of the specification, on the object's own columns:
    the squared Euclidean distance between (ra, dec) and the sightline is
    at most the squared radius. *)
Definition near (sightline : Sightline) (r : float) (x : CatalogObject) : bool :=
  let dra := (feature 1 x - fst sightline)%float in
  let ddec := (feature 2 x - snd sightline)%float in
  (dra * dra + ddec * ddec <=? r * r)%float.

Lemma strip2RAdec_coords (arr : list CatalogObject) :
  Forall (has_feature 2) arr ->
  strip2RAdec arr = Ok (List.map (fun x => (feature 1 x, feature 2 x)) arr).
Proof.
  unfold strip2RAdec. induction 1 as [|x arr Hx _ IH]; simpl; [reflexivity|].
  assert (H1 : has_feature 1 x) by (unfold has_feature in *; lia).
  rewrite (getitem_feature x 1 H1), (getitem_feature x 2 Hx). simpl.
  now rewrite IH.
Qed.

(** [strip2RAdec] either gives the coordinates of every row or stops with
    IndexError at a row that has fewer than three columns. *)
Lemma strip2RAdec_or_short (arr : list CatalogObject) :
  match strip2RAdec arr with
  | Ok coords => Forall (has_feature 2) arr
                 /\ coords = List.map (fun x => (feature 1 x, feature 2 x)) arr
  | Raise e => e = IndexError /\ Exists (fun x => length x <= 2) arr
  end.
Proof.
  unfold strip2RAdec. induction arr as [|x arr IH]; simpl.
  { split; [constructor|reflexivity]. }
  destruct (Nat.lt_ge_cases 2 (length x)) as [Hlt|Hge].
  - assert (H1 : has_feature 1 x) by (unfold has_feature; lia).
    rewrite (getitem_feature x 1 H1), (getitem_feature x 2 Hlt). simpl.
    destruct (comprehension _ arr) as [coords|e]; simpl.
    + destruct IH as [Hall ->]. split; [now constructor|reflexivity].
    + destruct IH as [-> Hex]. split; [reflexivity|now apply Exists_cons_tl].
  - destruct (getitem x 1) as [ra|e1] eqn:E1; simpl.
    + rewrite (getitem_short x 2 Hge). simpl.
      split; [reflexivity|now apply Exists_cons_hd].
    + split; [|now apply Exists_cons_hd]. eapply getitem_raises_IndexError; eauto.
Qed.

(** Over a tree built from [arr], the test that the ball query applies to
    the point at position [i] is the distance test on row [i] of [arr]. *)
Lemma ball_test_on_row sightline tree arr r i :
  strip2RAdec arr = Ok (data tree) -> i < length arr ->
  match nth_error (data tree) i with
  | Some p => in_ball sightline r p
  | None => false
  end = near sightline r (nth i arr []).
Proof.
  intros Hdata Hi. pose proof (strip2RAdec_or_short arr) as H.
  rewrite Hdata in H. destruct H as [_ ->].
  rewrite nth_error_map.
  destruct (nth_error arr i) as [x|] eqn:E.
  - rewrite (nth_error_nth _ _ _ E). reflexivity.
  - apply nth_error_None in E. lia.
Qed.

Lemma built_rows tree arr :
  built_from tree arr ->
  Forall (has_feature 2) arr /\ Forall (fun i => i < length arr) (indices tree).
Proof.
  intros [Hdata Hidx]. pose proof (strip2RAdec_or_short arr) as H.
  rewrite Hdata in H. destruct H as [Hall Hd]. split; [exact Hall|].
  rewrite Hd, length_map in Hidx. exact Hidx.
Qed.

(** What a returning call of [get_x_i] went through: the query point is
    finite, and the result is a rearrangement of the rows of [arr] at the
    positions of the tree whose row passes the distance test. *)
Lemma get_x_i_Ok sightline tree arr THRESHOLD x_i :
  built_from tree arr ->
  get_x_i sightline tree arr THRESHOLD = Ok x_i ->
  finite_point sightline = true
  /\ Permutation
       (List.map (fun i => nth i arr [])
          (List.filter (fun i => near sightline THRESHOLD (nth i arr [])) (indices tree)))
       x_i.
Proof.
  intros Hb H. destruct (built_rows tree arr Hb) as [Hall Hidx]. destruct Hb as [Hdata _].
  unfold get_x_i, query_ball_point in H.
  destruct (finite_point sightline); [|discriminate]. cbn [bind] in H.
  split; [reflexivity|].
  destruct (take_rows arr _) as [rows|] eqn:Hrows; [|discriminate]. cbn [bind] in H.
  destruct (sorted_perm (sort_key sightline) rows) as (l' & Hs & Hperm).
  { destruct (take_rows_ok arr (List.filter
                (fun i => match nth_error (data tree) i with
                          | Some p => in_ball sightline THRESHOLD p
                          | None => false
                          end) (indices tree))) as (rows' & Hr' & Hin).
    { rewrite List.Forall_forall in *. intros i Hi. apply filter_In in Hi as [Hi _]. auto. }
    rewrite Hrows in Hr'. inversion Hr'; subst rows'.
    eapply List.Forall_impl; [|exact Hin]. intros x (i & _ & Hx).
    apply nth_error_In in Hx. rewrite List.Forall_forall in Hall.
    specialize (Hall x Hx). unfold sort_key.
    assert (H1 : has_feature 1 x) by (unfold has_feature in *; lia).
    now rewrite (getitem_feature x 1 H1), (getitem_feature x 2 Hall). }
  rewrite Hs in H. cbn [bind] in H. inversion H; subst l'; clear H.
  rewrite (take_rows_map [] _ _ _ Hrows) in Hperm.
  erewrite filter_ext_in; [exact Hperm|].
  intros i Hi. cbv beta. symmetry. apply ball_test_on_row; [exact Hdata|].
  rewrite List.Forall_forall in Hidx. auto.
Qed.

(** When [get_x_i] raises over a built tree, it is the ball query that
    refused the sightline. *)
Lemma get_x_i_Raise sightline tree arr THRESHOLD e :
  built_from tree arr ->
  get_x_i sightline tree arr THRESHOLD = Raise e ->
  e = ValueError /\ finite_point sightline = false.
Proof.
  intros Hb H. destruct (built_rows tree arr Hb) as [Hall Hidx].
  unfold get_x_i, query_ball_point in H.
  destruct (finite_point sightline); [|inversion H; auto]. cbn [bind] in H.
  destruct (take_rows_ok arr (List.filter
              (fun i => match nth_error (data tree) i with
                        | Some p => in_ball sightline THRESHOLD p
                        | None => false
                        end) (indices tree))) as (rows & Hr & Hin).
  { rewrite List.Forall_forall in *. intros i Hi. apply filter_In in Hi as [Hi _]. auto. }
  rewrite Hr in H. cbn [bind] in H.
  destruct (sorted_perm (sort_key sightline) rows) as (l' & Hs & _).
  { eapply List.Forall_impl; [|exact Hin]. intros x (i & _ & Hx).
    apply nth_error_In in Hx. rewrite List.Forall_forall in Hall.
    specialize (Hall x Hx). unfold sort_key.
    assert (H1 : has_feature 1 x) by (unfold has_feature in *; lia).
    now rewrite (getitem_feature x 1 H1), (getitem_feature x 2 Hall). }
  rewrite Hs in H. discriminate.
Qed.

(** C6.  Over a tree built from the catalog, every object that [get_x_i]
    returns has coordinates, and their squared distance from the sightline
    is at most the squared [THRESHOLD]. *)
Theorem get_x_i_within_threshold (sightline : Sightline) (tree : KDTree)
    (arr : list CatalogObject) (THRESHOLD : float) (x_i : list CatalogObject) :
  built_from tree arr ->
  get_x_i sightline tree arr THRESHOLD = Ok x_i ->
  Forall (fun x => has_feature 2 x /\ near sightline THRESHOLD x = true) x_i.
Proof.
  intros Hb H. destruct (built_rows tree arr Hb) as [Hall Hidx].
  destruct (get_x_i_Ok _ _ _ _ _ Hb H) as [_ Hperm].
  eapply Permutation_Forall; [exact Hperm|].
  apply List.Forall_forall. intros x Hx.
  apply in_map_iff in Hx as (i & <- & Hi). apply filter_In in Hi as [Hi Hnear].
  split; [|exact Hnear].
  rewrite List.Forall_forall in Hall, Hidx. apply Hall, nth_In, Hidx, Hi.
Qed.

(** A catalog of three objects (identifier, ra, dec) around the sightline
    (0, 0); the first object sits on the sightline. *)
Definition objA : CatalogObject := [0; 0; 0]%float.
Definition objB : CatalogObject := [1; 0.001; 0.02]%float.
Definition objC : CatalogObject := [2; 0.01; 0]%float.
Definition objD : CatalogObject := [3; 0.5; 0.5]%float.
Definition catalog : list CatalogObject := [objA; objB; objC; objD].
Definition catalog_tree : KDTree :=
  {| data := [(0, 0); (0.001, 0.02); (0.01, 0); (0.5, 0.5)]%float;
     indices := [3; 2; 1; 0] |}.
Definition origin : Sightline := (0, 0)%float.

Lemma catalog_tree_built : built_from catalog_tree catalog.
Proof. split; [reflexivity|]. repeat constructor; simpl; lia. Qed.

Lemma get_x_i_within_threshold_witness :
  Forall (fun x => has_feature 2 x /\ near origin THRESHOLD_default x = true)
         [objA; objB; objC].
Proof.
  apply (get_x_i_within_threshold origin catalog_tree catalog THRESHOLD_default
           [objA; objB; objC]).
  - exact catalog_tree_built.
  - vm_compute. reflexivity.
Defined.

(** The fourth object is at distance 0.707 and fails the test. *)
Example objD_is_far : near origin THRESHOLD_default objD = false.
Proof. reflexivity. Qed.

(** The order the specification asks for: ascending Euclidean distance
    between each object's (ra, dec) and the sightline. *)
Definition euclidean_distance (sightline : Sightline) (x : CatalogObject) : float :=
  PrimFloat.sqrt (sqdist (feature 1 x, feature 2 x) sightline).

Fixpoint ascending_by_distance (sightline : Sightline) (xs : list CatalogObject) : bool :=
  match xs with
  | x :: ((y :: _) as xs') =>
      negb (euclidean_distance sightline y <? euclidean_distance sightline x)%float
      && ascending_by_distance sightline xs'
  | _ => true
  end.

(** C4, at a failing input.  The sort key is the norm of a
    zero-dimensional array holding the difference in right ascension only;
    the difference in declination is passed as the dtype.  [objB] is
    closer in right ascension and farther in distance than [objC], and is
    returned before it. *)
Theorem get_x_i_orders_by_ra_only :
  get_x_i origin catalog_tree catalog THRESHOLD_default = Ok [objA; objB; objC]
  /\ ascending_by_distance origin [objA; objB; objC] = false
  /\ ascending_by_distance origin [objA; objC; objB] = true.
Proof. vm_compute. repeat split; reflexivity. Qed.

Lemma sort_key_is_ra_difference sightline x ra dec :
  getitem x 1 = Ok ra -> getitem x 2 = Ok dec ->
  sort_key sightline x
  = Ok (PrimFloat.sqrt ((ra - fst sightline) * (ra - fst sightline)))%float.
Proof. intros H1 H2. unfold sort_key. now rewrite H1, H2. Qed.

(** ** Errors and shapes of the label functions *)

(** An object without column 39 makes [ylabel] raise IndexError, whatever
    the other objects hold and whatever [IDX] is passed. *)
Theorem ylabel_missing_column (x : list CatalogObject) (IDX : nat) :
  Exists (fun obj => length obj <= 39) x -> ylabel x IDX = Raise IndexError.
Proof.
  intros Hx. unfold ylabel.
  rewrite (comprehension_raises (fun obj => getitem obj 39) IndexError x); [reflexivity| |].
  - intros obj e. apply getitem_raises_IndexError.
  - eapply List.Exists_impl; [|exact Hx]. intros obj Hobj. cbv beta.
    now rewrite (getitem_short obj 39 Hobj).
Qed.

Lemma ylabel_missing_column_witness :
  ylabel [row_with 39 21500%float 45; objA] 39 = Raise IndexError.
Proof.
  apply (ylabel_missing_column [row_with 39 21500%float 45; objA] 39).
  apply Exists_cons_tl, Exists_cons_hd. simpl. lia.
Defined.

(** [gen_labels] returns exactly when every object of every example
    carries column 39, and then with one label per example, in order, each
    the mean of that column over its example divided by 1000 (NaN for an
    example without objects); with an object that is too short it raises
    IndexError. *)
Theorem gen_labels_one_per_example (X : list (list CatalogObject)) :
  match gen_labels X with
  | Ok Y => Forall (Forall (has_feature 39)) X /\ Forall2 mean_feature_label X Y
  | Raise e => e = IndexError /\ Exists (Exists (fun obj => length obj <= 39)) X
  end.
Proof.
  unfold gen_labels. induction X as [|x X IH]; simpl.
  { split; constructor. }
  unfold ylabel at 1. pose proof (column_or_short 39 x) as Hx.
  destruct (comprehension (fun obj => getitem obj 39) x) as [vals|e]; cbn [bind].
  - destruct Hx as [Hall ->].
    destruct (comprehension (fun x0 => ylabel x0 39) X) as [Y|e]; cbn [bind].
    + destruct IH as [HX HY]. split; constructor; auto. apply np_mean_label.
    + destruct IH as [-> Hex]. split; [reflexivity|now apply Exists_cons_tl].
  - destruct Hx as [-> Hex]. split; [reflexivity|now apply Exists_cons_hd].
Qed.

Lemma gen_labels_one_per_example_witness :
  Forall (Forall (has_feature 39)) [two_objects; []; nine_objects]
  /\ Forall2 mean_feature_label [two_objects; []; nine_objects]
             [22; nan; (10000000000000008 / 9) / 1000]%float.
Proof. exact (gen_labels_one_per_example [two_objects; []; nine_objects]). Defined.

(** [strip2RAdec] returns the (ra, dec) pair of every row, in order, when
    every row has three columns, and raises IndexError as soon as one row
    is shorter. *)
Theorem strip2RAdec_rows (arr : list CatalogObject) :
  (Forall (has_feature 2) arr ->
     strip2RAdec arr = Ok (List.map (fun x => (feature 1 x, feature 2 x)) arr))
  /\ (Exists (fun x => length x <= 2) arr -> strip2RAdec arr = Raise IndexError).
Proof.
  split; [apply strip2RAdec_coords|].
  intros Hx. unfold strip2RAdec.
  apply comprehension_raises.
  - intros x e. destruct (getitem x 1) as [ra|e1] eqn:E1; simpl.
    + destruct (getitem x 2) as [dec|e2] eqn:E2; simpl; [discriminate|].
      intros H; inversion H; subst. eapply getitem_raises_IndexError; eauto.
    + intros H; inversion H; subst. eapply getitem_raises_IndexError; eauto.
  - eapply List.Exists_impl; [|exact Hx]. intros x Hlen. cbv beta.
    destruct (getitem x 1) as [ra|e1]; simpl; [|reflexivity].
    now rewrite (getitem_short x 2 Hlen).
Qed.

Lemma strip2RAdec_rows_witness :
  strip2RAdec [objB; objC] = Ok [(0.001, 0.02); (0.01, 0)]%float
  /\ strip2RAdec [objB; [7; 0.5]%float] = Raise IndexError.
Proof.
  split.
  - apply (proj1 (strip2RAdec_rows [objB; objC])).
    repeat constructor; unfold has_feature; simpl; lia.
  - apply (proj2 (strip2RAdec_rows [objB; [7; 0.5]%float])).
    apply Exists_cons_tl, Exists_cons_hd. simpl. lia.
Defined.

(** ** What [get_x_i] keeps and how it orders *)

(** Over a tree built from the catalog, [get_x_i] returns exactly when the
    sightline is finite, and then neither drops nor repeats a match: its
    result is a rearrangement of the catalog rows at the positions the
    ball query reported.  A sightline that is not finite makes it raise
    the ValueError of the query. *)
Theorem get_x_i_rearranges_matches (sightline : Sightline) (tree : KDTree)
    (arr : list CatalogObject) (THRESHOLD : float) :
  built_from tree arr ->
  match get_x_i sightline tree arr THRESHOLD with
  | Ok x_i =>
      finite_point sightline = true
      /\ exists idx rows,
           query_ball_point tree sightline THRESHOLD = Ok idx
           /\ take_rows arr idx = Ok rows
           /\ Permutation rows x_i
  | Raise e => e = ValueError /\ finite_point sightline = false
  end.
Proof.
  intros Hb.
  destruct (get_x_i sightline tree arr THRESHOLD) as [x_i|e] eqn:H.
  - destruct (get_x_i_Ok _ _ _ _ _ Hb H) as [Hfin _]. split; [exact Hfin|].
    unfold get_x_i in H.
    destruct (query_ball_point tree sightline THRESHOLD) as [idx|]; [|discriminate].
    cbn [bind] in H.
    destruct (take_rows arr idx) as [rows|] eqn:Hrows; [|discriminate]. cbn [bind] in H.
    exists idx, rows. split; [reflexivity|]. split; [exact Hrows|].
    unfold sorted in H.
    destruct (comprehension _ rows) as [keys|] eqn:Hkeys; [|discriminate].
    cbn [bind] in H. inversion H; subst x_i; clear H.
    assert (Hsnd : List.map snd keys = rows).
    { clear -Hkeys. revert keys Hkeys. induction rows as [|x rows IH]; simpl; intros keys H.
      - now inversion H.
      - destruct (sort_key sightline x) as [k|]; [|discriminate]. simpl in H.
        destruct (comprehension _ rows) as [keys'|]; [|discriminate]. simpl in H.
        inversion H; subst. simpl. now rewrite (IH keys' eq_refl). }
    rewrite <- Hsnd at 1. apply Permutation_map, sort_keyed_perm.
  - exact (get_x_i_Raise _ _ _ _ _ Hb H).
Qed.

Lemma get_x_i_rearranges_matches_witness :
  finite_point origin = true
  /\ exists idx rows,
       query_ball_point catalog_tree origin THRESHOLD_default = Ok idx
       /\ take_rows catalog idx = Ok rows
       /\ Permutation rows [objA; objB; objC].
Proof.
  exact (get_x_i_rearranges_matches origin catalog_tree catalog THRESHOLD_default
           catalog_tree_built).
Defined.

(** A sightline with a coordinate that is not a number. *)
Example get_x_i_refuses_nan :
  get_x_i (nan, 0%float) catalog_tree catalog THRESHOLD_default = Raise ValueError.
Proof. reflexivity. Qed.

(** Comparison of binary64 numbers is asymmetric. *)
Lemma float_ltb_asym (x y : float) : (x <? y)%float = true -> (y <? x)%float = false.
Proof.
  rewrite !FloatAxioms.ltb_spec. unfold SpecFloat.SFltb.
  destruct (FloatOps.Prim2SF x) as [sx|sx| |sx mx ex],
           (FloatOps.Prim2SF y) as [sy|sy| |sy my ey]; simpl;
    try discriminate; try reflexivity;
    try (destruct sx; discriminate || reflexivity);
    try (destruct sy; discriminate || reflexivity);
    try (destruct sx, sy; discriminate || reflexivity).
  destruct sx, sy; try discriminate; try reflexivity.
  - rewrite (Z.compare_antisym ex ey).
    destruct (ex ?= ey)%Z; simpl; try discriminate; try reflexivity.
    replace (Pos.compare_cont Eq my mx) with (CompOpp (Pos.compare_cont Eq mx my))
      by apply (Pos.compare_cont_antisym mx my Eq).
    destruct (Pos.compare_cont Eq mx my); simpl; discriminate || reflexivity.
  - rewrite (Z.compare_antisym ex ey).
    destruct (ex ?= ey)%Z; simpl; try discriminate; try reflexivity.
    replace (Pos.compare_cont Eq my mx) with (CompOpp (Pos.compare_cont Eq mx my))
      by apply (Pos.compare_cont_antisym mx my Eq).
    destruct (Pos.compare_cont Eq mx my); simpl; discriminate || reflexivity.
Qed.

(** [b] may follow [a] in an ascending sequence of keys. *)
Definition not_before (a b : float) : Prop := (b <? a)%float = false.

Lemma insert_by_key_sorted {A} (kx : float * A) l :
  Sorted.Sorted (fun a b => not_before (fst a) (fst b)) l ->
  Sorted.Sorted (fun a b => not_before (fst a) (fst b)) (insert_by_key kx l).
Proof.
  induction 1 as [|ky l Hl IH Hhd]; simpl.
  - repeat constructor.
  - destruct (fst ky <? fst kx)%float eqn:Hlt.
    + constructor; [exact IH|].
      destruct l as [|kz l]; simpl.
      * constructor. now apply float_ltb_asym.
      * destruct (fst kz <? fst kx)%float.
        -- constructor. now inversion Hhd.
        -- constructor. now apply float_ltb_asym.
    + constructor; [now constructor|]. constructor. exact Hlt.
Qed.

Lemma sort_keyed_sorted {A} (l : list (float * A)) :
  Sorted.Sorted (fun a b => not_before (fst a) (fst b)) (sort_keyed l).
Proof.
  induction l as [|kx l IH]; simpl; [constructor|].
  now apply insert_by_key_sorted.
Qed.

(** The distance in right ascension between an object and the sightline,
    as [sort_key] computes it. *)
Definition ra_distance (sightline : Sightline) (x : CatalogObject) : float :=
  linalg_norm0 (feature 1 x - fst sightline)%float.

Lemma sort_key_ra_distance sightline x k :
  sort_key sightline x = Ok k -> k = ra_distance sightline x.
Proof.
  unfold sort_key, ra_distance.
  destruct (getitem x 1) as [x1|] eqn:E1; [|discriminate].
  destruct (getitem x 2) as [x2|]; [|discriminate].
  cbn [bind]. intros H; inversion H.
  unfold getitem in E1. destruct (nth_error x 1) as [v|] eqn:E; [|discriminate].
  inversion E1; subst. unfold feature. now rewrite (nth_error_nth _ _ _ E).
Qed.

Lemma keyed_by {A} (key : A -> result float) (g : A -> float) l keys :
  (forall x k, key x = Ok k -> k = g x) ->
  comprehension (fun x => k <- key x ;; Ok (k, x)) l = Ok keys ->
  Forall (fun kx => fst kx = g (snd kx)) keys.
Proof.
  intros Hg. revert keys. induction l as [|x l IH]; simpl; intros keys H.
  - inversion H. constructor.
  - destruct (key x) as [k|] eqn:Ek; [|discriminate]. simpl in H.
    destruct (comprehension _ l) as [keys'|]; [|discriminate]. simpl in H.
    inversion H; subst. constructor; [simpl; eauto | eauto].
Qed.

Lemma sorted_map_snd {A} (g : A -> float) (l : list (float * A)) :
  Forall (fun kx => fst kx = g (snd kx)) l ->
  Sorted.Sorted (fun a b => not_before (fst a) (fst b)) l ->
  Sorted.Sorted (fun x y => not_before (g x) (g y)) (List.map snd l).
Proof.
  intros Hall Hs. induction Hs as [|kx l Hl IH Hhd]; simpl; [constructor|].
  inversion Hall as [|? ? Hkx Hl']; subst.
  constructor; [auto|].
  destruct Hhd as [|ky l Hxy]; simpl; constructor.
  inversion Hl'; subst. unfold not_before in *. congruence.
Qed.

(** The order [get_x_i] does produce, for distances that are numbers: no
    object is followed by one that is strictly closer to the sightline in
    right ascension. *)
Theorem get_x_i_ascending_in_ra (sightline : Sightline) (tree : KDTree)
    (arr : list CatalogObject) (THRESHOLD : float) (x_i : list CatalogObject) :
  get_x_i sightline tree arr THRESHOLD = Ok x_i ->
  Forall (fun x => is_nan (ra_distance sightline x) = false) x_i ->
  Sorted.Sorted
    (fun x y => not_before (ra_distance sightline x) (ra_distance sightline y)) x_i.
Proof.
  intros Hget _. revert Hget. unfold get_x_i.
  destruct (query_ball_point tree sightline THRESHOLD) as [idx|]; [|discriminate]. simpl.
  destruct (take_rows arr idx) as [rows|]; [|discriminate]. simpl.
  unfold sorted.
  destruct (comprehension _ rows) as [keys|] eqn:Hkeys; [|discriminate]. simpl.
  intros H; inversion H; subst; clear H.
  apply sorted_map_snd.
  - assert (Hperm : Permutation keys (sort_keyed keys)) by apply sort_keyed_perm.
    eapply Permutation_Forall; [exact Hperm|].
    eapply keyed_by; [|exact Hkeys]. apply sort_key_ra_distance.
  - apply sort_keyed_sorted.
Qed.

Lemma get_x_i_ascending_in_ra_witness :
  Sorted.Sorted
    (fun x y => not_before (ra_distance origin x) (ra_distance origin y))
    [objA; objB; objC].
Proof.
  apply (get_x_i_ascending_in_ra origin catalog_tree catalog THRESHOLD_default).
  - vm_compute. reflexivity.
  - repeat constructor.
Defined.

(** ** [compute_X] *)

(** What scipy's constructor does with the coordinates it is given: the
    tree it returns keeps them and lists every position once; it raises
    nothing but ValueError, and only when there is no point or some
    coordinate is not finite. *)
Definition KDTree_contract (KDTree_build : list (float * float) -> result KDTree)
  : Prop :=
  forall coords,
    match KDTree_build coords with
    | Ok tree => data tree = coords
                 /\ Permutation (indices tree) (seq 0 (length coords))
    | Raise e => e = ValueError
                 /\ (coords = [] \/ Exists (fun p => finite_point p = false) coords)
    end.

Lemma Permutation_filter_same {A} (f : A -> bool) l l' :
  Permutation l l' -> Permutation (List.filter f l) (List.filter f l').
Proof.
  induction 1 as [|x l l' _ IH|x y l|l l' l'' _ IH1 _ IH2]; simpl.
  - constructor.
  - destruct (f x); [now constructor|exact IH].
  - destruct (f x), (f y); try reflexivity. apply perm_swap.
  - now rewrite IH1.
Qed.

(** Filtering the positions of a list by a test on the element they hold,
    and reading the elements back, filters the list. *)
Lemma filter_positions {A} (f : A -> bool) (d : A) l :
  List.map (fun i => nth i l d)
           (List.filter (fun i => f (nth i l d)) (seq 0 (length l)))
  = List.filter f l.
Proof.
  induction l as [|a l IH] using rev_ind; [reflexivity|].
  rewrite length_app. cbn [length]. rewrite Nat.add_1_r, seq_S. cbn [Nat.add].
  rewrite !List.filter_app, map_app. f_equal.
  - rewrite <- IH.
    erewrite filter_ext_in.
    2:{ intros i Hi. apply in_seq in Hi. rewrite app_nth1 by lia. reflexivity. }
    apply map_ext_in. intros i Hi. apply filter_In in Hi as [Hi _].
    apply in_seq in Hi. now rewrite app_nth1 by lia.
  - cbn [List.filter]. rewrite app_nth2, Nat.sub_diag by lia. cbn [nth].
    destruct (f a); [|reflexivity]. cbn [List.map].
    now rewrite app_nth2, Nat.sub_diag by lia.
Qed.

(** Under the constructor's contract, [compute_X] returns one matched set
    per sightline, in the order of the sightlines: the set of a sightline
    is a rearrangement of exactly those catalog rows that pass the distance
    test with the default threshold against that sightline.  It raises
    IndexError for a row with fewer than three columns, and ValueError for
    an empty catalog or a coordinate that is not finite. *)
Theorem compute_X_one_set_per_sightline KDTree_build arr sightlines :
  KDTree_contract KDTree_build ->
  match compute_X KDTree_build arr sightlines with
  | Ok X =>
      Forall2 (fun sightline x_i =>
                 Permutation x_i (List.filter (near sightline THRESHOLD_default) arr))
              sightlines X
  | Raise e =>
      (e = IndexError /\ Exists (fun x => length x <= 2) arr)
      \/ (e = ValueError
          /\ (arr = []
              \/ Exists (fun x => finite_point (feature 1 x, feature 2 x) = false) arr
              \/ Exists (fun sightline => finite_point sightline = false) sightlines))
  end.
Proof.
  intros Hbuild. unfold compute_X.
  pose proof (strip2RAdec_or_short arr) as Hc.
  destruct (strip2RAdec arr) as [coords|e] eqn:Hcoords; cbn [bind]; [|now left].
  destruct Hc as [Hall Hmap].
  specialize (Hbuild coords).
  destruct (KDTree_build coords) as [tree|e]; cbn [bind].
  2:{ right. destruct Hbuild as [-> [Hnil|Hex]]; split; try reflexivity.
      - left. subst coords. now destruct arr.
      - right; left. subst coords. apply List.Exists_exists in Hex as (p & Hp & Hfin).
        apply in_map_iff in Hp as (x & <- & Hx). apply List.Exists_exists. eauto. }
  destruct Hbuild as [Hdata Hperm].
  assert (Hn : length coords = length arr) by (rewrite Hmap; apply length_map).
  rewrite Hn in Hperm.
  assert (Hb : built_from tree arr).
  { split; [now rewrite Hdata|]. rewrite Hdata, Hn.
    eapply Permutation_Forall; [symmetry; exact Hperm|].
    apply List.Forall_forall. intros i Hi. apply in_seq in Hi. lia. }
  induction sightlines as [|s sightlines IH]; cbn [comprehension]; [constructor|].
  destruct (get_x_i s tree arr THRESHOLD_default) as [x_i|e] eqn:Hx; cbn [bind].
  - destruct (get_x_i_Ok _ _ _ _ _ Hb Hx) as [_ Hp].
    destruct (comprehension _ sightlines) as [X|e]; cbn [bind].
    + constructor; [|exact IH].
      rewrite <- Hp, <- (filter_positions (near s THRESHOLD_default) [] arr).
      apply Permutation_map, Permutation_filter_same, Hperm.
    + destruct IH as [IH|(-> & [IH|[IH|IH]])]; [now left| | |]; right;
        (split; [reflexivity|]).
      * now left.
      * right; now left.
      * right; right. now apply Exists_cons_tl.
  - destruct (get_x_i_Raise _ _ _ _ _ Hb Hx) as [-> Hfin].
    right. split; [reflexivity|]. right; right. now apply Exists_cons_hd.
Qed.

(** A constructor that lists the points from last to first, with scipy's
    checks. *)
Definition reversed_tree (coords : list (float * float)) : result KDTree :=
  match coords with
  | [] => Raise ValueError
  | _ => if forallb finite_point coords
         then Ok {| data := coords; indices := rev (seq 0 (length coords)) |}
         else Raise ValueError
  end.

Lemma reversed_tree_contract : KDTree_contract reversed_tree.
Proof.
  intros coords. unfold reversed_tree.
  destruct coords as [|p coords]; [split; auto|].
  destruct (forallb finite_point (p :: coords)) eqn:E.
  - split; [reflexivity|]. cbn [data indices]. symmetry. apply Permutation_rev.
  - split; [reflexivity|]. right.
    apply List.Exists_exists.
    destruct (forallb_forall finite_point (p :: coords)) as [_ Hf].
    destruct (List.existsb (fun q => negb (finite_point q)) (p :: coords)) eqn:Ex.
    + apply existsb_exists in Ex as (q & Hq & Hn). exists q. split; [exact Hq|].
      now destruct (finite_point q).
    + rewrite Hf in E; [discriminate|]. intros q Hq.
      destruct (finite_point q) eqn:Eq; [reflexivity|].
      assert (List.existsb (fun q => negb (finite_point q)) (p :: coords) = true).
      { apply existsb_exists. exists q. now rewrite Eq. }
      congruence.
Qed.

Lemma compute_X_one_set_per_sightline_witness :
  Forall2 (fun sightline x_i =>
             Permutation x_i (List.filter (near sightline THRESHOLD_default) catalog))
          [origin; (0.3, 0.3)%float] [[objA; objB; objC]; []].
Proof.
  exact (compute_X_one_set_per_sightline reversed_tree catalog
           [origin; (0.3, 0.3)%float] reversed_tree_contract).
Defined.

Example compute_X_keeps_empty_sets :
  compute_X reversed_tree catalog [origin; (0.3, 0.3)%float] = Ok [[objA; objB; objC]; []].
Proof. vm_compute. reflexivity. Qed.

(** No catalog, or a sightline that is not a point: ValueError. *)
Example compute_X_refuses :
  compute_X reversed_tree [] [origin] = Raise ValueError
  /\ compute_X reversed_tree catalog [origin; (infinity, 0)%float] = Raise ValueError.
Proof. split; reflexivity. Qed.

End ProcessingUtils.

(* ================================================================== *)
(** * exconvnet/des_data/fetcher.py *)
(* ================================================================== *)

Module Fetcher.

(** ** Paths

    A path is read as the operating system reads it: trailing slashes do
    not count, and the directory that holds the last component is
    everything before the last slash.  Paths are taken to be spelled
    without [.] and [..] components. *)

Fixpoint rstrip_slash (s : string) : string :=
  match s with
  | EmptyString => EmptyString
  | String c s' =>
      match rstrip_slash s' with
      | EmptyString => if Ascii.eqb c "/" then EmptyString else String c EmptyString
      | t => String c t
      end
  end.

(** The part before the last slash; [None] when there is no slash. *)
Fixpoint before_last_slash (s : string) : option string :=
  match s with
  | EmptyString => None
  | String c s' =>
      match before_last_slash s' with
      | Some t => Some (String c t)
      | None => if Ascii.eqb c "/" then Some EmptyString else None
      end
  end.

(** The directory that holds [path]; [None] is the current directory. *)
Definition parent (path : string) : option string :=
  match before_last_slash (rstrip_slash path) with
  | None => None
  | Some EmptyString => Some "/"%string
  | Some t => Some t
  end.

Fixpoint ends_with (suffix s : string) : bool :=
  String.eqb s suffix
  || match s with
     | EmptyString => false
     | String _ s' => ends_with suffix s'
     end.

Lemma ends_with_append (suffix p : string) : ends_with suffix (p ++ suffix) = true.
Proof.
  induction p as [|c p IH].
  - change (EmptyString ++ suffix)%string with suffix.
    destruct suffix; simpl; [reflexivity|].
    now rewrite Ascii.eqb_refl, String.eqb_refl.
  - change (String c p ++ suffix)%string with (String c (p ++ suffix)).
    cbn [ends_with]. rewrite IH. apply orb_true_r.
Qed.

Section Fetch.

(** The collaborators of [fetch] ([fetching_utils], [filter],
    [downloader], [processing]) and the values they exchange. *)
Variables Sightlines Cols Filters FilterObj Links Raw XT YT : Type.
Variable gen_sightlines : result Sightlines.
Variable DefaultFilter : option Cols -> option Filters -> result FilterObj.
Variable sightlines2links : Sightlines -> result Links.
Variable download : Links -> bool -> result Raw.
Variable process_X : Raw -> Sightlines -> FilterObj -> result XT.
Variable gen_labels : XT -> result YT.
(** The directory that holds the package, for the default [save_path]. *)
Variable exconvnet_dir : string.

Inductive artifact : Type :=
  | SavedX (X : XT)
  | SavedY (Y : YT).

(** The directories, named without trailing slash, and the files with
    their content.  The root and the current directory are always there. *)
Record Disk := { dirs : gset string; files : gmap string artifact }.

Definition isdir (path : string) (d : Disk) : bool :=
  negb (String.eqb path EmptyString)
  && (String.eqb (rstrip_slash path) EmptyString
      || bool_decide (rstrip_slash path ∈ dirs d)).

Definition isfile (path : string) (d : Disk) : bool :=
  negb (ends_with "/" path) && bool_decide (is_Some (files d !! path)).

Definition os_path_exists (path : string) (d : Disk) : bool :=
  isdir path d || isfile path d.

(** What stands in the way of creating an entry at [path]: the directory
    that is to hold it is missing (FileNotFoundError) or is a file
    (NotADirectoryError). *)
Definition check_parent (path : string) (d : Disk) : result unit :=
  match parent path with
  | None => Ok tt
  | Some p =>
      if isdir p d then Ok tt
      else if isfile p d then Raise NotADirectoryError
      else Raise FileNotFoundError
  end.

(** [os.mkdir(path)] *)
Definition os_mkdir (path : string) (d : Disk) : result unit * Disk :=
  if String.eqb path EmptyString then (Raise FileNotFoundError, d)
  else if os_path_exists path d || isfile (rstrip_slash path) d
       then (Raise FileExistsError, d)
  else match check_parent path d with
       | Raise e => (Raise e, d)
       | Ok _ => (Ok tt, {| dirs := {[rstrip_slash path]} ∪ dirs d; files := files d |})
       end.

(** [np.save(file, arr)]: the name gets the suffix [.npy] unless it has
    it; the file is opened for writing, which fails on a directory and in
    a directory that is not there, and then written. *)
Definition np_save (file : string) (a : artifact) (d : Disk) : result unit * Disk :=
  let file := if ends_with ".npy" file then file else (file ++ ".npy")%string in
  if isdir file d then (Raise IsADirectoryError, d)
  else match check_parent file d with
       | Raise e => (Raise e, d)
       | Ok _ => (Ok tt, {| dirs := dirs d; files := <[file := a]> (files d) |})
       end.

(** Reading a local variable that no assignment has bound. *)
Definition read_local {A} (name : string) (v : option A) : result A :=
  match v with
  | Some a => Ok a
  | None => Raise (UnboundLocalError name)
  end.

(** Lines 40-63: everything up to and including [process_X]. *)
Definition prepare (sightlines : option Sightlines) (cols : option Cols)
    (filters : option Filters) (verbose : bool) : result XT :=
  sightlines <- match sightlines with
                | None => gen_sightlines
                | Some s => Ok s
                end ;;
  filter_obj <- DefaultFilter cols filters ;;
  links <- sightlines2links sightlines ;;
  arr <- download links verbose ;;
  process_X arr sightlines filter_obj.

(** Lines 43-45: the default [save_path]. *)
Definition resolved_save_path (save_path : option string) : string :=
  match save_path with
  | None => path_join exconvnet_dir "datasets"
  | Some p => p
  end.

(** Lines 73-74: [if not(os.path.exists(save_path)): os.mkdir(save_path)]. *)
Definition ensure_dir (save_path : string) (d : Disk) : result unit * Disk :=
  if os_path_exists save_path d then (Ok tt, d) else os_mkdir save_path d.

(** [os.path.join(save_path, tag + '_X.npy')] with
    [tag = str(round(time.time()))], and the same for [Y]. *)
Definition X_path (save_path : option string) (time : N) : string :=
  path_join (resolved_save_path save_path) (str_of_N time ++ "_X.npy").

Definition Y_path (save_path : option string) (time : N) : string :=
  path_join (resolved_save_path save_path) (str_of_N time ++ "_Y.npy").

(** [time] is [round(time.time())]. *)
Definition fetch (sightlines : option Sightlines) (cols : option Cols)
    (filters : option Filters) (save_path : option string) (gen_Y verbose : bool)
    (time : N) (disk : Disk) : result (XT * YT) * Disk :=
  match prepare sightlines cols filters verbose with
  | Raise e => (Raise e, disk)
  | Ok X =>
      match (if gen_Y then assigned (gen_labels X) else Ok None) with
      | Raise e => (Raise e, disk)
      | Ok Y =>
          match ensure_dir (resolved_save_path save_path) disk with
          | (Raise e, disk) => (Raise e, disk)
          | (Ok _, disk) =>
              match np_save (X_path save_path time) (SavedX X) disk with
              | (Raise e, disk) => (Raise e, disk)
              | (Ok _, disk) =>
                  match read_local "Y" Y with
                  | Raise e => (Raise e, disk)
                  | Ok y =>
                      match np_save (Y_path save_path time) (SavedY y) disk with
                      | (Raise e, disk) => (Raise e, disk)
                      | (Ok _, disk) => (Ok (X, y), disk)
                      end
                  end
              end
          end
      end
  end.

(** ** Properties of [fetch] *)

(** What a returning call went through. *)
Lemma fetch_cases sightlines cols filters save_path gen_Y verbose time disk X Y disk' :
  fetch sightlines cols filters save_path gen_Y verbose time disk = (Ok (X, Y), disk') ->
  prepare sightlines cols filters verbose = Ok X
  /\ gen_Y = true /\ gen_labels X = Ok Y
  /\ exists d1 d2,
       ensure_dir (resolved_save_path save_path) disk = (Ok tt, d1)
       /\ np_save (X_path save_path time) (SavedX X) d1 = (Ok tt, d2)
       /\ np_save (Y_path save_path time) (SavedY Y) d2 = (Ok tt, disk').
Proof.
  unfold fetch.
  destruct (prepare sightlines cols filters verbose) as [X'|e]; [|discriminate].
  destruct gen_Y.
  - destruct (gen_labels X') as [Y'|e] eqn:EY; cbn [assigned]; [|discriminate].
    destruct (ensure_dir _ disk) as [[[]|e] d1] eqn:E1; [|discriminate].
    destruct (np_save _ (SavedX X') d1) as [[[]|e] d2] eqn:E2; [|discriminate].
    cbn [read_local].
    destruct (np_save _ (SavedY Y') d2) as [[[]|e] d3] eqn:E3; [|discriminate].
    intros H; inversion H; subst.
    split; [reflexivity|]. split; [reflexivity|]. split; [exact EY|].
    exists d1, d2. split; [reflexivity|]. split; [exact E2|exact E3].
  - destruct (ensure_dir _ disk) as [[[]|e] d1]; [|discriminate].
    destruct (np_save _ _ d1) as [[[]|e] d2]; discriminate.
Qed.

(** C9.  Without [gen_Y] the local [Y] is never bound: [fetch] cannot
    return, and once every step before the save of [Y] has gone through
    (the preparation of [X], the save directory, the save of [X]) it
    raises UnboundLocalError (a NameError) for [Y].  A returned pair
    implies [gen_Y]. *)
Theorem fetch_gen_Y sightlines cols filters save_path gen_Y verbose time disk :
  (gen_Y = false ->
     returns (fst (fetch sightlines cols filters save_path gen_Y verbose time disk)) = false
     /\ forall X d1 d2,
          prepare sightlines cols filters verbose = Ok X ->
          ensure_dir (resolved_save_path save_path) disk = (Ok tt, d1) ->
          np_save (X_path save_path time) (SavedX X) d1 = (Ok tt, d2) ->
          fetch sightlines cols filters save_path gen_Y verbose time disk
          = (Raise (UnboundLocalError "Y"), d2)
          /\ isinstance_NameError (UnboundLocalError "Y") = true)
  /\ (forall X Y,
        fst (fetch sightlines cols filters save_path gen_Y verbose time disk) = Ok (X, Y) ->
        gen_Y = true).
Proof.
  split.
  - intros ->. unfold fetch. split.
    + destruct (prepare sightlines cols filters verbose); [|reflexivity].
      destruct (ensure_dir _ disk) as [[[]|e] d1]; [|reflexivity].
      destruct (np_save _ _ d1) as [[[]|e] d2]; reflexivity.
    + intros X d1 d2 -> -> ->. split; reflexivity.
  - intros X Y H.
    destruct (fetch sightlines cols filters save_path gen_Y verbose time disk)
      as [r disk'] eqn:E.
    simpl in H. subst r. now apply fetch_cases in E.
Qed.

(** With [gen_Y] set and every step going through, the pair is returned and
    both arrays are on disk. *)
Lemma fetch_with_labels sightlines cols filters save_path verbose time disk X Y d1 d2 d3 :
  prepare sightlines cols filters verbose = Ok X -> gen_labels X = Ok Y ->
  ensure_dir (resolved_save_path save_path) disk = (Ok tt, d1) ->
  np_save (X_path save_path time) (SavedX X) d1 = (Ok tt, d2) ->
  np_save (Y_path save_path time) (SavedY Y) d2 = (Ok tt, d3) ->
  fetch sightlines cols filters save_path true verbose time disk = (Ok (X, Y), d3).
Proof.
  intros HX HY H1 H2 H3. unfold fetch. rewrite HX, HY. cbn [assigned].
  rewrite H1, H2. cbn [read_local]. now rewrite H3.
Qed.

(** ** What [fetch] leaves on disk *)

Lemma append_same_prefix (p a b : string) :
  (p ++ a)%string = (p ++ b)%string -> a = b.
Proof. induction p as [|c p IH]; simpl; intros H; [exact H|]. inversion H; auto. Qed.

Lemma X_path_is_not_Y_path save_path time : X_path save_path time <> Y_path save_path time.
Proof.
  unfold X_path, Y_path, path_join. intros H.
  apply append_same_prefix, append_same_prefix in H. discriminate.
Qed.

Lemma string_app_assoc (a b c : string) :
  String.append (String.append a b) c = String.append a (String.append b c).
Proof.
  induction a as [|x a IH]; [reflexivity|].
  change (String x (String.append (String.append a b) c)
          = String x (String.append a (String.append b c))).
  now rewrite IH.
Qed.

Lemma X_path_npy save_path time : ends_with ".npy" (X_path save_path time) = true.
Proof.
  unfold X_path, path_join.
  change (str_of_N time ++ "_X.npy")%string with (str_of_N time ++ ("_X" ++ ".npy"))%string.
  rewrite <- (string_app_assoc (str_of_N time)), <- (string_app_assoc (path_prefix _)).
  apply ends_with_append.
Qed.

Lemma Y_path_npy save_path time : ends_with ".npy" (Y_path save_path time) = true.
Proof.
  unfold Y_path, path_join.
  change (str_of_N time ++ "_Y.npy")%string with (str_of_N time ++ ("_Y" ++ ".npy"))%string.
  rewrite <- (string_app_assoc (str_of_N time)), <- (string_app_assoc (path_prefix _)).
  apply ends_with_append.
Qed.

(** A save that goes through writes the one file and nothing else; a
    save that fails writes nothing. *)
Lemma np_save_Ok file a d d' :
  ends_with ".npy" file = true ->
  np_save file a d = (Ok tt, d') ->
  dirs d' = dirs d /\ files d' = <[file := a]> (files d).
Proof.
  unfold np_save. intros ->.
  destruct (isdir file d); [discriminate|].
  destruct (check_parent file d); [|discriminate].
  intros H; inversion H; subst; auto.
Qed.

Lemma np_save_Raise file a d e d' : np_save file a d = (Raise e, d') -> d' = d.
Proof.
  unfold np_save.
  destruct (isdir _ d); [now inversion 1|].
  destruct (check_parent _ d); [discriminate|now inversion 1].
Qed.

Lemma os_mkdir_files path d r d' : os_mkdir path d = (r, d') -> files d' = files d.
Proof.
  unfold os_mkdir.
  destruct (String.eqb path EmptyString); [now inversion 1|].
  destruct (os_path_exists path d || isfile (rstrip_slash path) d); [now inversion 1|].
  destruct (check_parent path d); now inversion 1.
Qed.

Lemma ensure_dir_files path d r d' : ensure_dir path d = (r, d') -> files d' = files d.
Proof.
  unfold ensure_dir. destruct (os_path_exists path d); [now inversion 1|].
  apply os_mkdir_files.
Qed.

Lemma exists_after_np_save path file a d d' :
  ends_with ".npy" file = true ->
  np_save file a d = (Ok tt, d') ->
  os_path_exists path d = true -> os_path_exists path d' = true.
Proof.
  intros Hnpy Hs H. destruct (np_save_Ok _ _ _ _ Hnpy Hs) as [Hd Hf].
  unfold os_path_exists, isdir, isfile in *. rewrite Hd, Hf.
  apply orb_true_iff in H as [H|H]; apply orb_true_iff; [now left|right].
  apply andb_true_iff in H as [Hslash H]. rewrite Hslash. cbn [andb].
  apply bool_decide_eq_true in H. apply bool_decide_eq_true.
  destruct (decide (file = path)) as [->|Hne].
  - rewrite lookup_insert_eq. eauto.
  - now rewrite lookup_insert_ne.
Qed.

Lemma exists_after_ensure_dir path d d' :
  ensure_dir path d = (Ok tt, d') -> os_path_exists path d' = true.
Proof.
  unfold ensure_dir. destruct (os_path_exists path d) eqn:E.
  { intros H; inversion H; subst. exact E. }
  unfold os_mkdir.
  destruct (String.eqb path EmptyString) eqn:Ee; [discriminate|].
  destruct (os_path_exists path d || isfile (rstrip_slash path) d); [discriminate|].
  destruct (check_parent path d); [|discriminate].
  intros H; inversion H; subst.
  unfold os_path_exists, isdir. cbn [dirs]. rewrite Ee. cbn [negb andb].
  apply orb_true_iff. left. apply orb_true_iff. right.
  apply bool_decide_eq_true. set_solver.
Qed.

(** A returned pair is on disk: [X] and [Y] are the content of
    [<tag>_X.npy] and [<tag>_Y.npy] under the save path, which exists. *)
Theorem fetch_saves_both sightlines cols filters save_path gen_Y verbose time disk X Y :
  fst (fetch sightlines cols filters save_path gen_Y verbose time disk) = Ok (X, Y) ->
  files (snd (fetch sightlines cols filters save_path gen_Y verbose time disk))
    !! X_path save_path time = Some (SavedX X)
  /\ files (snd (fetch sightlines cols filters save_path gen_Y verbose time disk))
       !! Y_path save_path time = Some (SavedY Y)
  /\ os_path_exists (resolved_save_path save_path)
       (snd (fetch sightlines cols filters save_path gen_Y verbose time disk)) = true.
Proof.
  destruct (fetch sightlines cols filters save_path gen_Y verbose time disk)
    as [r disk'] eqn:E.
  cbn [fst snd]. intros ->.
  destruct (fetch_cases _ _ _ _ _ _ _ _ _ _ _ E) as (_ & _ & _ & d1 & d2 & H1 & H2 & H3).
  destruct (np_save_Ok _ _ _ _ (X_path_npy save_path time) H2) as [_ F2].
  destruct (np_save_Ok _ _ _ _ (Y_path_npy save_path time) H3) as [_ F3].
  split; [|split].
  - rewrite F3, lookup_insert_ne
      by (intros Heq; symmetry in Heq; now apply X_path_is_not_Y_path in Heq).
    rewrite F2. apply lookup_insert_eq.
  - rewrite F3. apply lookup_insert_eq.
  - eapply exists_after_np_save; [apply Y_path_npy|exact H3|].
    eapply exists_after_np_save; [apply X_path_npy|exact H2|].
    now apply exists_after_ensure_dir with (d := disk).
Qed.

(** Without [gen_Y], once the preparation of [X], the save directory and
    the save of [X] have gone through, [X] is on disk when the exception
    is raised, and nothing has been written for [Y]. *)
Theorem fetch_without_labels_has_saved_X sightlines cols filters save_path verbose
    time disk X d1 d2 :
  prepare sightlines cols filters verbose = Ok X ->
  ensure_dir (resolved_save_path save_path) disk = (Ok tt, d1) ->
  np_save (X_path save_path time) (SavedX X) d1 = (Ok tt, d2) ->
  files (snd (fetch sightlines cols filters save_path false verbose time disk))
    !! X_path save_path time = Some (SavedX X)
  /\ files (snd (fetch sightlines cols filters save_path false verbose time disk))
       !! Y_path save_path time = files disk !! Y_path save_path time.
Proof.
  intros HX H1 H2. unfold fetch. rewrite HX, H1, H2. cbn [read_local snd].
  destruct (np_save_Ok _ _ _ _ (X_path_npy save_path time) H2) as [_ F2].
  rewrite F2, (ensure_dir_files _ _ _ _ H1). split.
  - apply lookup_insert_eq.
  - apply lookup_insert_ne, X_path_is_not_Y_path.
Qed.

(** Whatever the outcome, [fetch] changes no file other than
    [<tag>_X.npy] and [<tag>_Y.npy] under the save path. *)
Theorem fetch_touches_only_its_files sightlines cols filters save_path gen_Y verbose
    time disk path :
  path <> X_path save_path time -> path <> Y_path save_path time ->
  files (snd (fetch sightlines cols filters save_path gen_Y verbose time disk)) !! path
  = files disk !! path.
Proof.
  intros HnX HnY. unfold fetch.
  destruct (prepare sightlines cols filters verbose) as [X|e]; [|reflexivity].
  destruct (if gen_Y then assigned (gen_labels X) else Ok None) as [Y|e]; [|reflexivity].
  destruct (ensure_dir _ disk) as [[[]|e] d1] eqn:E1; cbn [snd];
    [|now rewrite (ensure_dir_files _ _ _ _ E1)].
  assert (F1 : files d1 !! path = files disk !! path)
    by now rewrite (ensure_dir_files _ _ _ _ E1).
  destruct (np_save _ (SavedX X) d1) as [[[]|e] d2] eqn:E2; cbn [snd].
  2:{ now rewrite (np_save_Raise _ _ _ _ _ E2). }
  destruct (np_save_Ok _ _ _ _ (X_path_npy save_path time) E2) as [_ F2].
  assert (F2' : files d2 !! path = files disk !! path)
    by (rewrite F2, lookup_insert_ne by congruence; exact F1).
  destruct Y as [y|]; cbn [read_local snd]; [|exact F2'].
  destruct (np_save _ (SavedY y) d2) as [[[]|e] d3] eqn:E3; cbn [snd].
  2:{ now rewrite (np_save_Raise _ _ _ _ _ E3). }
  destruct (np_save_Ok _ _ _ _ (Y_path_npy save_path time) E3) as [_ F3].
  rewrite F3, lookup_insert_ne by congruence. exact F2'.
Qed.

End Fetch.

(** A run on two catalog objects, with the labels of
    [processing_utils.gen_labels], on a disk that holds the package
    directory and nothing else. *)
Definition package_disk : Disk (list (list ProcessingUtils.CatalogObject)) (list float) :=
  {| dirs := {["/opt/exconvnet"%string]}; files := ∅ |}.

Definition demo_fetch_on (save_path : option string) (gen_Y : bool) :=
  fetch (list ProcessingUtils.Sightline) unit unit unit unit
        (list ProcessingUtils.CatalogObject)
        (list (list ProcessingUtils.CatalogObject)) (list float)
        (Ok [ProcessingUtils.origin])
        (fun _ _ => Ok tt)
        (fun _ => Ok tt)
        (fun _ _ => Ok ProcessingUtils.two_objects)
        (fun arr _ _ => Ok [arr])
        ProcessingUtils.gen_labels
        "/opt/exconvnet"
        None None None save_path gen_Y false 1600000000%N
        package_disk.

Definition demo_fetch (gen_Y : bool) := demo_fetch_on None gen_Y.

Definition demo_X_path : string := "/opt/exconvnet/datasets/1600000000_X.npy".
Definition demo_Y_path : string := "/opt/exconvnet/datasets/1600000000_Y.npy".

(** The disk after the save directory has been made, and after [X] has
    been saved. *)
Definition disk_with_dir : Disk (list (list ProcessingUtils.CatalogObject)) (list float) :=
  {| dirs := {["/opt/exconvnet/datasets"%string]} ∪ {["/opt/exconvnet"%string]};
     files := ∅ |}.

Definition disk_with_X : Disk (list (list ProcessingUtils.CatalogObject)) (list float) :=
  {| dirs := {["/opt/exconvnet/datasets"%string]} ∪ {["/opt/exconvnet"%string]};
     files := <[demo_X_path := SavedX _ _ [ProcessingUtils.two_objects]]> ∅ |}.

Lemma fetch_gen_Y_witness :
  demo_fetch false = (Raise (UnboundLocalError "Y"), disk_with_X)
  /\ isinstance_NameError (UnboundLocalError "Y") = true.
Proof.
  unfold demo_fetch, demo_fetch_on.
  refine (proj2 (proj1 (fetch_gen_Y
                          (list ProcessingUtils.Sightline) unit unit unit unit
                          (list ProcessingUtils.CatalogObject)
                          (list (list ProcessingUtils.CatalogObject)) (list float)
                          (Ok [ProcessingUtils.origin])
                          (fun _ _ => Ok tt)
                          (fun _ => Ok tt)
                          (fun _ _ => Ok ProcessingUtils.two_objects)
                          (fun arr _ _ => Ok [arr])
                          ProcessingUtils.gen_labels
                          "/opt/exconvnet" None None None None false false
                          1600000000%N package_disk) eq_refl)
                [ProcessingUtils.two_objects] disk_with_dir disk_with_X eq_refl _ _).
  - vm_compute. reflexivity.
  - vm_compute. reflexivity.
Defined.

Example demo_fetch_with_labels :
  fst (demo_fetch true) = Ok ([ProcessingUtils.two_objects], [22%float]).
Proof. vm_compute. reflexivity. Qed.

(** A save path whose parent directory is missing: [os.mkdir] raises
    FileNotFoundError before anything is saved, with or without [gen_Y]. *)
Example fetch_missing_parent :
  demo_fetch_on (Some "/missing/deep"%string) false = (Raise FileNotFoundError, package_disk)
  /\ demo_fetch_on (Some "/missing/deep"%string) true = (Raise FileNotFoundError, package_disk).
Proof. split; vm_compute; reflexivity. Qed.

Lemma fetch_saves_both_witness :
  files _ _ (snd (demo_fetch true)) !! demo_X_path
  = Some (SavedX _ _ [ProcessingUtils.two_objects])
  /\ files _ _ (snd (demo_fetch true)) !! demo_Y_path = Some (SavedY _ _ [22%float])
  /\ os_path_exists _ _ "/opt/exconvnet/datasets" (snd (demo_fetch true)) = true.
Proof.
  refine (fetch_saves_both
           (list ProcessingUtils.Sightline) unit unit unit unit
           (list ProcessingUtils.CatalogObject)
           (list (list ProcessingUtils.CatalogObject)) (list float)
           (Ok [ProcessingUtils.origin])
           (fun _ _ => Ok tt)
           (fun _ => Ok tt)
           (fun _ _ => Ok ProcessingUtils.two_objects)
           (fun arr _ _ => Ok [arr])
           ProcessingUtils.gen_labels
           "/opt/exconvnet"
           None None None None true false 1600000000%N package_disk
           [ProcessingUtils.two_objects] [22%float] _).
  vm_compute. reflexivity.
Defined.

Lemma fetch_without_labels_has_saved_X_witness :
  files _ _ (snd (demo_fetch false)) !! demo_X_path
  = Some (SavedX _ _ [ProcessingUtils.two_objects])
  /\ files _ _ (snd (demo_fetch false)) !! demo_Y_path = None.
Proof.
  refine (fetch_without_labels_has_saved_X
           (list ProcessingUtils.Sightline) unit unit unit unit
           (list ProcessingUtils.CatalogObject)
           (list (list ProcessingUtils.CatalogObject)) (list float)
           (Ok [ProcessingUtils.origin])
           (fun _ _ => Ok tt)
           (fun _ => Ok tt)
           (fun _ _ => Ok ProcessingUtils.two_objects)
           (fun arr _ _ => Ok [arr])
           ProcessingUtils.gen_labels
           "/opt/exconvnet"
           None None None None false 1600000000%N package_disk
           [ProcessingUtils.two_objects] disk_with_dir disk_with_X eq_refl _ _).
  - vm_compute. reflexivity.
  - vm_compute. reflexivity.
Defined.

Lemma fetch_touches_only_its_files_witness :
  files _ _ (snd (demo_fetch true)) !! "/opt/exconvnet/datasets/1500000000_X.npy"
  = None.
Proof.
  refine (fetch_touches_only_its_files
           (list ProcessingUtils.Sightline) unit unit unit unit
           (list ProcessingUtils.CatalogObject)
           (list (list ProcessingUtils.CatalogObject)) (list float)
           (Ok [ProcessingUtils.origin])
           (fun _ _ => Ok tt)
           (fun _ => Ok tt)
           (fun _ _ => Ok ProcessingUtils.two_objects)
           (fun arr _ _ => Ok [arr])
           ProcessingUtils.gen_labels
           "/opt/exconvnet"
           None None None None true false 1600000000%N package_disk
           "/opt/exconvnet/datasets/1500000000_X.npy" _ _); discriminate.
Defined.

End Fetcher.

(* ================================================================== *)
(** * A fragment of numpy: C-ordered arrays and strided views *)
(* ================================================================== *)

Module Numpy.

(** The content of one array cell.  [np.empty] allocates without writing:
    such a cell is [Uninit] until an assignment stores a number in it. *)
Inductive scalar : Type :=
  | Uninit
  | Flt (x : float)
  | Idx (n : nat).

Definition is_written (c : scalar) : bool :=
  match c with Uninit => false | _ => true end.

Record ndarray := { shape : list nat; flat : list scalar }.

Definition size_of (shp : list nat) : nat := fold_right Nat.mul 1 shp.

Definition empty (shp : list nat) : ndarray :=
  {| shape := shp; flat := repeat Uninit (size_of shp) |}.

Definition of_floats (shp : list nat) (l : list float) : ndarray :=
  {| shape := shp; flat := List.map Flt l |}.

(** [len(a)]: the extent of the first axis; a zero-dimensional array has
    no length. *)
Definition len (a : ndarray) : result nat :=
  match shape a with
  | [] => Raise TypeError
  | n :: _ => Ok n
  end.

(** A view walks a buffer through one (extent, stride) pair per axis. *)
Record view := { offset : nat; dims : list (nat * nat) }.

Fixpoint walk (ds : list (nat * nat)) (base : nat) : list nat :=
  match ds with
  | [] => [base]
  | (n, stride) :: ds' =>
      flat_map (fun i => walk ds' (base + i * stride)) (seq 0 n)
  end.

Definition view_offsets (v : view) : list nat := walk (dims v) (offset v).
Definition view_shape (v : view) : list nat := List.map fst (dims v).

(** Row-major strides of a contiguous array of the given shape. *)
Fixpoint strides (shp : list nat) : list nat :=
  match shp with
  | [] => []
  | _ :: shp' => size_of shp' :: strides shp'
  end.

Definition whole (a : ndarray) : view :=
  {| offset := 0; dims := combine (shape a) (strides (shape a)) |}.

(** Reading a view out of a buffer, in C order. *)
Definition gather (buf : list scalar) (v : view) : list scalar :=
  List.map (fun o => nth o buf Uninit) (view_offsets v).

(** *** Basic indexing: one selector per axis *)

Inductive sel : Type :=
  | At (j : nat)            (* an integer index: the axis disappears *)
  | Range (lo hi : nat)     (* the slice [lo:hi], clipped to the axis *)
  | All.                    (* the slice [:] *)

(** Fewer selectors than axes: the remaining axes are taken whole.  More
    selectors than axes: IndexError. *)
Fixpoint select (shp : list nat) (sels : list sel) (base : nat)
  : result view :=
  match shp with
  | [] =>
      match sels with
      | [] => Ok {| offset := base; dims := [] |}
      | _ :: _ => Raise IndexError
      end
  | n :: shp' =>
      let stride := size_of shp' in
      match hd All sels with
      | At j =>
          if j <? n then select shp' (tl sels) (base + j * stride)
          else Raise IndexError
      | Range lo hi =>
          let lo' := Nat.min lo n in
          let hi' := Nat.min hi n in
          v <- select shp' (tl sels) (base + lo' * stride) ;;
          Ok {| offset := offset v; dims := (hi' - lo', stride) :: dims v |}
      | All =>
          v <- select shp' (tl sels) base ;;
          Ok {| offset := offset v; dims := (n, stride) :: dims v |}
      end
  end.

(** *** Broadcasting a value to the shape of an assignment target

    Shapes are aligned at their last axis; an axis of the value matches
    when it has the target's extent or extent 1 (which is then repeated,
    stride 0).  Anything else is numpy's "could not broadcast" ValueError. *)
Fixpoint broadcast_dims (target source : list nat) (src_strides : list nat)
  : option (list (nat * nat)) :=
  match target, source, src_strides with
  | [], [], [] => Some []
  | n :: t', m :: s', st :: st' =>
      if m =? n then option_map (cons (n, st)) (broadcast_dims t' s' st')
      else if m =? 1 then option_map (cons (n, 0)) (broadcast_dims t' s' st')
      else None
  | _, _, _ => None
  end.

Definition pad_left (k : nat) (shp : list nat) : list nat :=
  repeat 1 (k - length shp) ++ shp.

Definition broadcast_to (val : ndarray) (target : list nat) : result (list scalar) :=
  if length target <? length (shape val) then Raise ValueError
  else
    let src := pad_left (length target) (shape val) in
    match broadcast_dims target src (strides src) with
    | Some ds => Ok (gather (flat val) {| offset := 0; dims := ds |})
    | None => Raise ValueError
    end.

Fixpoint scatter (buf : list scalar) (offs : list nat) (vals : list scalar)
  : list scalar :=
  match offs, vals with
  | o :: offs', x :: vals' => scatter (<[o := x]> buf) offs' vals'
  | _, _ => buf
  end.

(** [a[sels] = val] *)
Definition setitem (a : ndarray) (sels : list sel) (val : ndarray)
  : result ndarray :=
  v <- select (shape a) sels 0 ;;
  vals <- broadcast_to val (view_shape v) ;;
  Ok {| shape := shape a; flat := scatter (flat a) (view_offsets v) vals |}.

(** [a[sels]] (a copy of the selected view) *)
Definition getitem (a : ndarray) (sels : list sel) : result ndarray :=
  v <- select (shape a) sels 0 ;;
  Ok {| shape := view_shape v; flat := gather (flat a) v |}.

(** *** transpose, reshape, squeeze *)

Definition transpose_view (a : ndarray) (axes : list nat) : view :=
  let ds := dims (whole a) in
  {| offset := 0; dims := List.map (fun k => nth k ds (1, 0)) axes |}.

(** A requested extent of [reshape]: a number or the placeholder [-1]. *)
Inductive extent : Type := Ext (n : nat) | Infer.

Definition known_size (req : list extent) : nat :=
  fold_right (fun e acc => match e with Ext n => n * acc | Infer => acc end) 1 req.

Definition count_infer (req : list extent) : nat :=
  List.length (List.filter (fun e => match e with Infer => true | _ => false end) req).

(** [reshape] of the view [v] of [buf]: the elements are taken in C order.
    The placeholder is resolved from the total size; with no way to resolve
    it, or a size mismatch, numpy raises ValueError. *)
Definition reshape (buf : list scalar) (v : view) (req : list extent)
  : result ndarray :=
  let total := size_of (view_shape v) in
  let known := known_size req in
  match count_infer req with
  | 0 =>
      if known =? total
      then Ok {| shape := List.map (fun e => match e with Ext n => n | Infer => 0 end) req;
                 flat := gather buf v |}
      else Raise ValueError
  | 1 =>
      if (known =? 0) || negb (total mod known =? 0) then Raise ValueError
      else Ok {| shape := List.map (fun e => match e with
                                            | Ext n => n
                                            | Infer => total / known
                                            end) req;
                 flat := gather buf v |}
  | _ => Raise ValueError
  end.

Definition squeeze (a : ndarray) : ndarray :=
  {| shape := List.filter (fun n => negb (n =? 1)) (shape a); flat := flat a |}.

(** The cells of row [e] (first axis) of a contiguous array. *)
Definition row_cells (a : ndarray) (e : nat) : list scalar :=
  let w := size_of (tl (shape a)) in
  firstn w (skipn (e * w) (flat a)).

Definition row_written (a : ndarray) (e : nat) : bool :=
  forallb is_written (row_cells a e).

(** ** Assigning whole rows *)

Lemma walk_row (Y b : nat) : flat_map (fun j => [b + j * 1]) (seq 0 Y) = seq b Y.
Proof.
  induction Y as [|Y IH]; [reflexivity|].
  rewrite !seq_S, flat_map_app, IH. simpl. now rewrite Nat.mul_1_r.
Qed.

Lemma walk_rows (m Y b : nat) : walk [(m, Y); (Y, 1)] b = seq b (m * Y).
Proof.
  change (walk [(m, Y); (Y, 1)] b)
    with (flat_map (fun i => walk [(Y, 1)] (b + i * Y)) (seq 0 m)).
  induction m as [|m IH]; [reflexivity|].
  rewrite seq_S, flat_map_app, IH. cbn [flat_map walk Nat.add].
  rewrite walk_row, app_nil_r, <- seq_app. f_equal. lia.
Qed.

Lemma gather_all (l : list scalar) :
  List.map (fun o => nth o l Uninit) (seq 0 (length l)) = l.
Proof.
  apply nth_ext with (d := Uninit) (d' := Uninit).
  - now rewrite length_map, length_seq.
  - intros i Hi. rewrite length_map, length_seq in Hi.
    rewrite (nth_indep _ Uninit (nth 0 l Uninit)) by (now rewrite length_map, length_seq).
    rewrite (map_nth (fun o => nth o l Uninit)), seq_nth by lia. reflexivity.
Qed.

Lemma scatter_splice (pre mid post vals : list scalar) :
  length mid = length vals ->
  scatter (pre ++ mid ++ post) (seq (length pre) (length vals)) vals
  = pre ++ vals ++ post.
Proof.
  revert pre mid. induction vals as [|x vals IH]; intros pre mid Hlen.
  - destruct mid; [reflexivity|discriminate].
  - destruct mid as [|y mid]; [discriminate|]. simpl in Hlen.
    cbn [length seq scatter].
    replace (<[length pre := x]> (pre ++ (y :: mid) ++ post))
      with ((pre ++ [x]) ++ mid ++ post).
    2:{ rewrite <- (Nat.add_0_r (length pre)) at 1. rewrite insert_app_r. simpl.
        now rewrite <- app_assoc. }
    replace (S (length pre)) with (length (pre ++ [x]))
      by (rewrite length_app; simpl; lia).
    rewrite IH by lia. now rewrite <- app_assoc.
Qed.

(** Assigning [m] rows of width [Y] to the rows [lo .. lo + m) of an
    array of shape [n, Y] replaces exactly the cells of those rows. *)
Lemma setitem_rows (n Y lo hi m : nat) (pre mid post vals : list scalar) :
  hi = lo + m -> hi <= n ->
  length pre = lo * Y -> length mid = m * Y -> length vals = m * Y ->
  setitem {| shape := [n; Y]; flat := pre ++ mid ++ post |} [Range lo hi; All]
          {| shape := [m; Y]; flat := vals |}
  = Ok {| shape := [n; Y]; flat := pre ++ vals ++ post |}.
Proof.
  intros -> Hhi Hpre Hmid Hvals.
  unfold setitem. cbn [shape flat select hd tl bind size_of fold_right offset dims].
  rewrite (Nat.min_l lo n), (Nat.min_l (lo + m) n) by lia.
  replace (lo + m - lo) with m by lia. rewrite !Nat.mul_1_r.
  cbn [bind view_shape dims List.map fst].
  unfold broadcast_to. cbn [shape length Nat.ltb Nat.leb pad_left Nat.sub repeat app
                            strides size_of fold_right broadcast_dims].
  rewrite !Nat.eqb_refl. cbn [option_map]. rewrite !Nat.mul_1_r.
  unfold gather, view_offsets. cbn [dims offset bind flat].
  rewrite !walk_rows. rewrite <- Hvals, gather_all.
  f_equal. f_equal. simpl. rewrite <- Hpre, Hvals, <- Hmid.
  rewrite Hmid, <- Hvals. apply scatter_splice. lia.
Qed.

End Numpy.

(* ================================================================== *)
(** * n2j/inference/inference_manager.py *)
(* ================================================================== *)

Module Inference.
Import Numpy.

(** What a Python call hands back when the value is not always an array. *)
Inductive pyval : Type :=
  | PyNone
  | PyArray (a : ndarray).

(** Calls into the collaborators ([self.model], [iutils]) that stand for an
    expensive computation; the world keeps them in call order, newest
    first. *)
Inductive event : Type :=
  | EvForward          (* self.model(batch) *)
  | EvLogP             (* iutils.get_log_p_k_given_omega_int *)
  | EvOmegaPost        (* iutils.get_omega_post *)
  | EvMcmcSamples      (* iutils.get_mcmc_samples *)
  | EvLogWeights.      (* iutils.get_kappa_log_weights *)

Definition event_eqb (a b : event) : bool :=
  match a, b with
  | EvForward, EvForward | EvLogP, EvLogP | EvOmegaPost, EvOmegaPost
  | EvMcmcSamples, EvMcmcSamples | EvLogWeights, EvLogWeights => true
  | _, _ => false
  end.

Section Manager.

(** ** The collaborators *)

(** The input part of a sightline example (node features, edges). *)
Variable Graph : Type.
(** The state of a pseudo-random generator (torch's global one, or a numpy
    [Generator]). *)
Variable RNG : Type.
(** The distribution parameters [u] returned by [self.model(batch)]. *)
Variable Pred : Type.
(** Keyword arguments and chain locations handed through to [iutils]. *)
Variable Kwargs : Type.

(** One dataset item after [transform_Y]: [y] is the standardized target
    row. *)
Record Example := { ex_graph : Graph; ex_y : list float }.
Definition Batch := list Example.

Inductive Dataset : Type :=
  | CosmoDC2Graph (items : list Example)
  | Subset (d : Dataset) (indices : list nat).

Definition dataset_len (d : Dataset) : nat :=
  match d with
  | CosmoDC2Graph items => length items
  | Subset _ indices => length indices
  end.

Fixpoint dataset_get (d : Dataset) (i : nat) : result Example :=
  match d with
  | CosmoDC2Graph items =>
      match nth_error items i with
      | Some e => Ok e
      | None => Raise IndexError
      end
  | Subset d' indices =>
      match nth_error indices i with
      | Some j => dataset_get d' j
      | None => Raise IndexError
      end
  end.

Inductive Sampler : Type :=
  | SequentialSampler                                   (* shuffle=False *)
  | RandomSampler                                       (* shuffle=True *)
  | SubsetRandomSampler (indices : list nat)
  | WeightedRandomSampler (weights : list float) (num_samples : nat).

Record DataLoader := {
  dl_dataset : Dataset;
  dl_batch_size : nat;
  dl_sampler : Sampler;
  dl_drop_last : bool
}.

(** The files below [out_dir], torch's global generator and the calls made
    so far. *)
Record World := {
  fs : gmap string ndarray;
  torch_rng : RNG;
  calls : list event
}.

Definition M (A : Type) : Type := World -> result A * World.

Definition ret {A} (a : A) : M A := fun w => (Ok a, w).
Definition lift {A} (r : result A) : M A := fun w => (r, w).
Definition bindM {A B} (m : M A) (k : A -> M B) : M B :=
  fun w => match m w with
           | (Ok a, w') => k a w'
           | (Raise e, w') => (Raise e, w')
           end.

Notation "x <~ m ;; k" := (bindM m (fun x => k))
  (at level 100, m at next level, right associativity).

Definition record (ev : event) : M unit :=
  fun w => (Ok tt, {| fs := fs w; torch_rng := torch_rng w; calls := ev :: calls w |}).

Definition with_rng {A} (f : RNG -> A * RNG) : M A :=
  fun w => let (a, r) := f (torch_rng w) in
           (Ok a, {| fs := fs w; torch_rng := r; calls := calls w |}).

Fixpoint for_each {A S} (l : list A) (body : A -> S -> M S) (s : S) : M S :=
  match l with
  | [] => ret s
  | a :: l' => s' <~ body a s ;; for_each l' body s'
  end.

Definition enumerate {A} (l : list A) : list (nat * A) :=
  combine (seq 0 (length l)) l.

Variable torch_randperm : nat -> RNG -> list nat * RNG.
Variable torch_multinomial : list float -> nat -> RNG -> list nat * RNG.
Variable torch_manual_seed : Z -> RNG.
(** The elementwise product and sum of two tensors, computed in the dtype
    of the tensors (float32 unless the dataset says otherwise); the result
    is a number of that dtype, which the float64 array it is stored in
    holds exactly. *)
Variable torch_mul torch_add : float -> float -> float.

(** [x, u = self.model(batch)]: a stochastic forward pass. *)
Variable model_forward : Batch -> RNG -> Pred * RNG.
(** [u.shape[0]] *)
Variable pred_rows : Pred -> nat.
(** [self.model.global_nll.sample(Y_mean, Y_std, n_samples)] after
    [set_trained_pred(u)]. *)
Variable nll_sample : Pred -> list float -> list float -> nat -> RNG -> ndarray * RNG.

Variable iutils_get_log_p_k_given_omega_int : ndarray -> ndarray -> result ndarray.
Variable iutils_get_omega_post :
  ndarray -> ndarray -> Kwargs -> float -> float -> M pyval.
Variable iutils_get_mcmc_samples : string -> Kwargs -> M ndarray.
Variable iutils_get_kappa_log_weights : ndarray -> ndarray -> ndarray -> result ndarray.

(** [scipy.stats.gaussian_kde(dataset, bw_method='scott')] and its [pdf]. *)
Variable KDE : Type.
Variable gaussian_kde : ndarray -> result KDE.
Variable kde_pdf : KDE -> ndarray -> result (list float).
(** [np.random.default_rng(seed)] and
    [Generator.choice(a, p=p, replace=False, size=size)]. *)
Variable default_rng : Z -> RNG.
Variable Generator_choice : RNG -> list nat -> list float -> nat -> result (list nat).

(** ** The data loader *)

(** torch refuses a batch size that is not positive. *)
Definition mkDataLoader (d : Dataset) (bs : nat) (s : Sampler) (drop_last : bool)
  : result DataLoader :=
  if bs =? 0 then Raise ValueError
  else Ok {| dl_dataset := d; dl_batch_size := bs; dl_sampler := s;
             dl_drop_last := drop_last |}.

(** The order in which one pass visits the dataset. *)
Definition sampler_order (s : Sampler) (n : nat) : M (list nat) :=
  match s with
  | SequentialSampler => ret (seq 0 n)
  | RandomSampler => with_rng (torch_randperm n)
  | SubsetRandomSampler indices =>
      perm <~ with_rng (torch_randperm (length indices)) ;;
      ret (List.map (fun i => nth i indices 0) perm)
  | WeightedRandomSampler weights num_samples =>
      with_rng (torch_multinomial weights num_samples)
  end.

(** Consecutive groups of [bs] positions; a shorter last group is kept
    unless [drop_last]. *)
Definition batched (bs : nat) (drop_last : bool) (order : list nat)
  : list (list nat) :=
  let n := length order in
  let full := List.map (fun i => firstn bs (skipn (i * bs) order)) (seq 0 (n / bs)) in
  if drop_last || (n mod bs =? 0) then full
  else full ++ [skipn (n / bs * bs) order].

Definition loader_batches (l : DataLoader) : M (list (list nat)) :=
  order <~ sampler_order (dl_sampler l) (dataset_len (dl_dataset l)) ;;
  ret (batched (dl_batch_size l) (dl_drop_last l) order).

Definition collate (d : Dataset) (idxs : list nat) : result Batch :=
  comprehension (dataset_get d) idxs.

(** ** The manager *)

Record InferenceManager := {
  seed : Z;
  out_dir : string;
  batch_size : nat;
  Y_dim : nat;
  Y_mean : list float;
  Y_std : list float;
  train_dataset : Dataset;
  train_loader : DataLoader;
  val_dataset : Dataset;
  val_loader : DataLoader
}.

Definition seed_everything (self : InferenceManager) : M unit :=
  fun w => (Ok tt, {| fs := fs w; torch_rng := torch_manual_seed (seed self);
                      calls := calls w |}).

(** [load_dataset(..., is_train=False, batch_size)]: the test branch.  The
    training branch, which fixes the transforms and the training sampler,
    has been run before and is part of [self]. *)
Definition load_dataset_test (self : InferenceManager) (dataset : Dataset)
    (batch_size : nat) : result InferenceManager :=
  loader <- mkDataLoader dataset batch_size SequentialSampler true ;;
  Ok {| seed := seed self; out_dir := out_dir self;
        batch_size := batch_size;
        Y_dim := Y_dim self; Y_mean := Y_mean self; Y_std := Y_std self;
        train_dataset := train_dataset self; train_loader := train_loader self;
        val_dataset := dataset; val_loader := loader |}.

(** The training branch with its three loading options; [stats_Y_mean]
    and [stats_Y_std] are the columns of the saved statistics that
    [sub_target] selects. *)
Definition load_dataset_train (self : InferenceManager) (dataset : Dataset)
    (batch_size : nat) (n_targets : nat) (stats_Y_mean stats_Y_std : list float)
    (subsample_idx : option (list nat)) (y_weight : option (list float))
  : result InferenceManager :=
  let sampler :=
    match subsample_idx, y_weight with
    | Some idx, _ => SubsetRandomSampler idx
    | None, Some w => WeightedRandomSampler w (dataset_len dataset)
    | None, None => RandomSampler
    end in
  loader <- mkDataLoader dataset batch_size sampler true ;;
  Ok {| seed := seed self; out_dir := out_dir self;
        batch_size := batch_size;
        Y_dim := n_targets; Y_mean := stats_Y_mean; Y_std := stats_Y_std;
        train_dataset := dataset; train_loader := loader;
        val_dataset := val_dataset self; val_loader := val_loader self |}.

(** ** The cache files *)

Definition path_exists (path : string) : M bool :=
  fun w => (Ok (match fs w !! path with Some _ => true | None => false end), w).

Definition np_load (path : string) : M ndarray :=
  fun w => match fs w !! path with
           | Some a => (Ok a, w)
           | None => (Raise FileNotFoundError, w)
           end.

Definition np_save (path : string) (a : ndarray) : M unit :=
  fun w => (Ok tt, {| fs := <[path := a]> (fs w); torch_rng := torch_rng w;
                      calls := calls w |}).

(** ** De-standardization: [(batch.y * Y_std + Y_mean).cpu().numpy()]

    Two rows are combined elementwise when they have the same width or
    one of them has width 1; otherwise torch raises RuntimeError (and numpy
    ValueError).  The arithmetic is torch's, in the dtype of the tensors. *)
Definition broadcast2 (err : exn) (op : float -> float -> float) (a b : list float)
  : result (list float) :=
  if length a =? length b then Ok (List.map (fun p => op (fst p) (snd p)) (combine a b))
  else match a, b with
       | [x], _ => Ok (List.map (op x) b)
       | _, [y] => Ok (List.map (fun x => op x y) a)
       | _, _ => Raise err
       end.

Definition destandardize_row (std mean y : list float) : result (list float) :=
  ys <- broadcast2 RuntimeError torch_mul y std ;;
  broadcast2 RuntimeError torch_add ys mean.

Definition destandardize (batch : Batch) (std mean : list float) : result ndarray :=
  rows <- comprehension (fun e => destandardize_row std mean (ex_y e)) batch ;;
  let width := length (hd [] rows) in
  if forallb (fun r => length r =? width) rows
  then Ok (of_floats [length batch; width] (concat rows))
  else Raise RuntimeError.

(** ** get_bnn_kappa *)

Definition get_bnn_kappa (self : InferenceManager) (n_samples n_mc_dropout : nat)
  : M ndarray :=
  let path := path_join (out_dir self) "k_bnn.npy" in
  cached <~ path_exists path ;;
  if cached : bool then np_load path
  else
    let n_test := dataset_len (val_dataset self) in
    let samples := empty [n_test; n_mc_dropout; n_samples; Y_dim self] in
    batches <~ loader_batches (val_loader self) ;;
    samples <~ for_each (enumerate batches)
      (fun ib samples =>
         let i := fst ib in
         batch <~ lift (collate (dl_dataset (val_loader self)) (snd ib)) ;;
         for_each (seq 0 n_mc_dropout)
           (fun mc_iter samples =>
              _ <~ record EvForward ;;
              u <~ with_rng (model_forward batch) ;;
              let B := pred_rows u in
              mc_samples <~ with_rng (nll_sample u (Y_mean self) (Y_std self) n_samples) ;;
              lift (setitem samples [Range (i * B) ((i + 1) * B); At mc_iter; All; All]
                            mc_samples))
           samples)
      samples ;;
    samples <~ lift (reshape (flat samples) (transpose_view samples [0; 3; 1; 2])
                             [Ext n_test; Ext (Y_dim self); Infer]) ;;
    _ <~ np_save path samples ;;
    ret samples.

(** ** get_true_kappa *)

Definition get_true_kappa (self : InferenceManager) (is_train : bool)
    (add_suffix : string) (save : bool) : M ndarray :=
  let loader := if is_train then train_loader self else val_loader self in
  let suffix := if is_train then "train"%string else "val"%string in
  let path := path_join (out_dir self) ("k_" ++ suffix ++ add_suffix ++ ".npy") in
  cached <~ path_exists path ;;
  if cached : bool then np_load path
  else
    let n_test := dataset_len (val_dataset self) in
    let true_kappa := empty [n_test; Y_dim self] in
    batches <~ loader_batches loader ;;
    true_kappa <~ for_each (enumerate batches)
      (fun ib true_kappa =>
         let i := fst ib in
         batch <~ lift (collate (dl_dataset loader) (snd ib)) ;;
         let B := length batch in
         rows <~ lift (destandardize batch (Y_std self) (Y_mean self)) ;;
         lift (setitem true_kappa [Range (i * B) ((i + 1) * B); All] rows))
      true_kappa ;;
    _ <~ (if save then np_save path true_kappa else ret tt) ;;
    ret true_kappa.

(** ** get_log_p_k_given_omega_int *)

Definition get_log_p_k_given_omega_int (self : InferenceManager)
    (n_samples n_mc_dropout : nat) : M ndarray :=
  let path := path_join (out_dir self) "log_p_k_given_omega_int.npy" in
  cached <~ path_exists path ;;
  if cached : bool then np_load path
  else
    k_train <~ get_true_kappa self true EmptyString true ;;
    k_bnn <~ get_bnn_kappa self n_samples n_mc_dropout ;;
    _ <~ record EvLogP ;;
    log_p <~ lift (iutils_get_log_p_k_given_omega_int (squeeze k_train) (squeeze k_bnn)) ;;
    _ <~ np_save path log_p ;;
    ret log_p.

(** ** run_mcmc_for_omega_post

    The body ends with the call of [iutils.get_omega_post]; there is no
    [return] statement, so the caller receives [None]. *)
Definition run_mcmc_for_omega_post (self : InferenceManager)
    (n_samples n_mc_dropout : nat) (mcmc_kwargs : Kwargs)
    (bounds_lower bounds_upper : float) : M pyval :=
  k_bnn <~ get_bnn_kappa self n_samples n_mc_dropout ;;
  log_p <~ get_log_p_k_given_omega_int self n_samples n_mc_dropout ;;
  _ <~ record EvOmegaPost ;;
  _ <~ iutils_get_omega_post k_bnn log_p mcmc_kwargs bounds_lower bounds_upper ;;
  ret PyNone.

(** ** get_kappa_log_weights *)

Definition get_kappa_log_weights (self : InferenceManager) (idx : nat)
    (n_samples n_mc_dropout : nat) (chain_path : string) (chain_kwargs : Kwargs)
  : M ndarray :=
  let path := path_join (out_dir self) ("log_weights_" ++ str_of_nat idx ++ ".npy") in
  k_bnn <~ get_bnn_kappa self n_samples n_mc_dropout ;;
  log_p <~ get_log_p_k_given_omega_int self n_samples n_mc_dropout ;;
  _ <~ record EvMcmcSamples ;;
  omega_post_samples <~ iutils_get_mcmc_samples chain_path chain_kwargs ;;
  k_bnn_idx <~ lift (getitem k_bnn [At idx; All]) ;;
  log_p_idx <~ lift (getitem log_p [At idx; All]) ;;
  _ <~ record EvLogWeights ;;
  log_weights <~ lift (iutils_get_kappa_log_weights k_bnn_idx omega_post_samples log_p_idx) ;;
  _ <~ np_save path log_weights ;;
  ret log_weights.

(** ** reset_val_dataset *)

(** [a.tolist()] for a one-dimensional array of positions. *)
Definition tolist_idx (a : ndarray) : result (list nat) :=
  match shape a with
  | [_] => comprehension (fun c => match c with
                                   | Idx n => Ok n
                                   | _ => Raise TypeError
                                   end) (flat a)
  | _ => Raise TypeError
  end.

Definition of_idx (l : list nat) : ndarray :=
  {| shape := [length l]; flat := List.map Idx l |}.

Definition set_val (self : InferenceManager) (d : Dataset) (l : DataLoader)
  : InferenceManager :=
  {| seed := seed self; out_dir := out_dir self; batch_size := batch_size self;
     Y_dim := Y_dim self; Y_mean := Y_mean self; Y_std := Y_std self;
     train_dataset := train_dataset self; train_loader := train_loader self;
     val_dataset := d; val_loader := l |}.

Definition reset_val_dataset (self : InferenceManager)
    (subsample_pdf_func : ndarray -> result (list float)) (n_val : nat)
  : M InferenceManager :=
  let rng := default_rng 123 in
  true_kappa <~ get_true_kappa self false "orig" true ;;
  let y_val := squeeze true_kappa in
  let subsample_idx_path := path_join (out_dir self) "subsample_idx.npy" in
  cached <~ path_exists subsample_idx_path ;;
  subsample_idx <~
    (if cached : bool then
       a <~ np_load subsample_idx_path ;;
       lift (tolist_idx a)
     else
       n <~ lift (len y_val) ;;
       kde <~ lift (gaussian_kde y_val) ;;
       target <~ lift (subsample_pdf_func y_val) ;;
       dens <~ lift (kde_pdf kde y_val) ;;
       p <~ lift (broadcast2 ValueError PrimFloat.div target dens) ;;
       let p := List.map (fun x => (x / np_sum p)%float) p in
       subsample_idx <~ lift (Generator_choice rng (seq 0 n) p n_val) ;;
       _ <~ np_save subsample_idx_path (of_idx subsample_idx) ;;
       ret subsample_idx) ;;
  let val_subset := Subset (val_dataset self) subsample_idx in
  loader <~ lift (mkDataLoader val_subset (batch_size self) SequentialSampler false) ;;
  ret (set_val self val_subset loader).

(* ------------------------------------------------------------------ *)
(** ** Reasoning about the monad *)

Lemma bindM_Ok {A B} (m : M A) (k : A -> M B) w b w' :
  bindM m k w = (Ok b, w') ->
  exists a w1, m w = (Ok a, w1) /\ k a w1 = (Ok b, w').
Proof.
  unfold bindM. destruct (m w) as [[a|e] w1]; [|discriminate].
  intros H. now exists a, w1.
Qed.

Lemma bindM_eq {A B} (m : M A) (k : A -> M B) w a w1 :
  m w = (Ok a, w1) -> bindM m k w = k a w1.
Proof. unfold bindM. now intros ->. Qed.

Lemma ret_Ok {A} (a b : A) w w' : ret a w = (Ok b, w') -> a = b /\ w = w'.
Proof. unfold ret. intros H; inversion H; auto. Qed.

Lemma lift_Ok {A} (r : result A) b w w' : lift r w = (Ok b, w') -> r = Ok b /\ w = w'.
Proof. unfold lift. intros H; inversion H; auto. Qed.

Ltac bind_in H a w E :=
  apply bindM_Ok in H as (a & w & E & H).

(** A computation that leaves the files alone. *)
Definition keeps_files {A} (m : M A) : Prop :=
  forall w r w', m w = (r, w') -> fs w' = fs w.

Lemma keeps_ret {A} (a : A) : keeps_files (ret a).
Proof. intros w r w' H; inversion H; reflexivity. Qed.

Lemma keeps_lift {A} (r : result A) : keeps_files (lift r).
Proof. intros w r' w' H; inversion H; reflexivity. Qed.

Lemma keeps_record ev : keeps_files (record ev).
Proof. intros w r w' H; inversion H; reflexivity. Qed.

Lemma keeps_with_rng {A} (f : RNG -> A * RNG) : keeps_files (with_rng f).
Proof.
  intros w r w'. unfold with_rng. destruct (f (torch_rng w)).
  intros H; inversion H; reflexivity.
Qed.

Lemma keeps_bind {A B} (m : M A) (k : A -> M B) :
  keeps_files m -> (forall a, keeps_files (k a)) -> keeps_files (bindM m k).
Proof.
  intros Hm Hk w r w'. unfold bindM.
  destruct (m w) as [[a|e] w1] eqn:E.
  - intros H. rewrite (Hk a _ _ _ H). eapply Hm; eauto.
  - intros H; inversion H; subst. eapply Hm; eauto.
Qed.

Lemma keeps_for_each {A S} (l : list A) (body : A -> S -> M S) s :
  (forall a s, keeps_files (body a s)) -> keeps_files (for_each l body s).
Proof.
  intros Hb. revert s; induction l as [|a l IH]; intros s; simpl.
  - apply keeps_ret.
  - apply keeps_bind; auto.
Qed.

Lemma keeps_loader_batches l : keeps_files (loader_batches l).
Proof.
  unfold loader_batches. apply keeps_bind; [|intros; apply keeps_ret].
  destruct (dl_sampler l); simpl.
  - apply keeps_ret.
  - apply keeps_with_rng.
  - apply keeps_bind; [apply keeps_with_rng|intros; apply keeps_ret].
  - apply keeps_with_rng.
Qed.

Lemma path_exists_eq path w :
  path_exists path w
  = (Ok (match fs w !! path with Some _ => true | None => false end), w).
Proof. reflexivity. Qed.

(** ** The three cached computations *)

Definition k_bnn_path (self : InferenceManager) : string :=
  path_join (out_dir self) "k_bnn.npy".

Definition true_kappa_path (self : InferenceManager) (is_train : bool)
    (add_suffix : string) : string :=
  path_join (out_dir self)
            ("k_" ++ (if is_train then "train" else "val") ++ add_suffix ++ ".npy").

Definition log_p_path (self : InferenceManager) : string :=
  path_join (out_dir self) "log_p_k_given_omega_int.npy".

Definition log_weights_path (self : InferenceManager) (idx : nat) : string :=
  path_join (out_dir self) ("log_weights_" ++ str_of_nat idx ++ ".npy").

(** A present artifact is returned as it is; nothing is computed and the
    world does not change. *)
Lemma get_bnn_kappa_cached self n_samples n_mc_dropout w a :
  fs w !! k_bnn_path self = Some a ->
  get_bnn_kappa self n_samples n_mc_dropout w = (Ok a, w).
Proof.
  intros H. unfold get_bnn_kappa, k_bnn_path in *.
  rewrite (bindM_eq _ _ _ _ _ (path_exists_eq _ w)), H.
  unfold np_load. now rewrite H.
Qed.

(** A returned array is the artifact at the key's path afterwards. *)
Lemma get_bnn_kappa_stored self n_samples n_mc_dropout w a w' :
  get_bnn_kappa self n_samples n_mc_dropout w = (Ok a, w') ->
  fs w' !! k_bnn_path self = Some a.
Proof.
  unfold get_bnn_kappa, k_bnn_path.
  rewrite (bindM_eq _ _ _ _ _ (path_exists_eq _ w)).
  destruct (fs w !! path_join (out_dir self) "k_bnn.npy") as [a0|] eqn:E.
  - unfold np_load. rewrite E. intros H; inversion H; subst. exact E.
  - intros H.
    bind_in H batches w1 E1. bind_in H samples w2 E2.
    bind_in H reshaped w3 E3. bind_in H u w4 E4.
    apply ret_Ok in H as [<- <-].
    unfold np_save in E4. inversion E4; subst; simpl.
    apply lookup_insert_eq.
Qed.

(** Once [get_bnn_kappa] has returned, a further call in the world it left
    returns the same array and changes nothing, whatever sample counts it is
    given: it reads [k_bnn.npy]. *)
Lemma get_bnn_kappa_idempotent self n_samples n_mc_dropout w a w' n_samples' n_mc_dropout' :
  get_bnn_kappa self n_samples n_mc_dropout w = (Ok a, w') ->
  get_bnn_kappa self n_samples' n_mc_dropout' w' = (Ok a, w').
Proof. intros H. apply get_bnn_kappa_cached. eapply get_bnn_kappa_stored; eauto. Qed.

Lemma get_true_kappa_cached self is_train add_suffix save w a :
  fs w !! true_kappa_path self is_train add_suffix = Some a ->
  get_true_kappa self is_train add_suffix save w = (Ok a, w).
Proof.
  intros H. unfold get_true_kappa, true_kappa_path in *.
  rewrite (bindM_eq _ _ _ _ _ (path_exists_eq _ w)), H.
  unfold np_load. now rewrite H.
Qed.

Lemma get_true_kappa_stored self is_train add_suffix w a w' :
  get_true_kappa self is_train add_suffix true w = (Ok a, w') ->
  fs w' !! true_kappa_path self is_train add_suffix = Some a.
Proof.
  unfold get_true_kappa, true_kappa_path.
  rewrite (bindM_eq _ _ _ _ _ (path_exists_eq _ w)).
  match goal with |- context [fs w !! ?p] => destruct (fs w !! p) as [a0|] eqn:E end.
  - unfold np_load. rewrite E. intros H; inversion H; subst. exact E.
  - intros H.
    bind_in H batches w1 E1. bind_in H tk w2 E2. bind_in H u w3 E3.
    apply ret_Ok in H as [<- <-].
    unfold np_save in E3. inversion E3; subst; simpl.
    apply lookup_insert_eq.
Qed.

(** Once [get_true_kappa] has returned with [save=True], a further call with
    the same [is_train] and suffix returns the same array and changes
    nothing, whatever [save] it is given. *)
Lemma get_true_kappa_idempotent self is_train add_suffix w a w' save' :
  get_true_kappa self is_train add_suffix true w = (Ok a, w') ->
  get_true_kappa self is_train add_suffix save' w' = (Ok a, w').
Proof. intros H. apply get_true_kappa_cached. eapply get_true_kappa_stored; eauto. Qed.

Lemma get_log_p_cached self n_samples n_mc_dropout w a :
  fs w !! log_p_path self = Some a ->
  get_log_p_k_given_omega_int self n_samples n_mc_dropout w = (Ok a, w).
Proof.
  intros H. unfold get_log_p_k_given_omega_int, log_p_path in *.
  rewrite (bindM_eq _ _ _ _ _ (path_exists_eq _ w)), H.
  unfold np_load. now rewrite H.
Qed.

Lemma get_log_p_stored self n_samples n_mc_dropout w a w' :
  get_log_p_k_given_omega_int self n_samples n_mc_dropout w = (Ok a, w') ->
  fs w' !! log_p_path self = Some a.
Proof.
  unfold get_log_p_k_given_omega_int, log_p_path.
  rewrite (bindM_eq _ _ _ _ _ (path_exists_eq _ w)).
  match goal with |- context [fs w !! ?p] => destruct (fs w !! p) as [a0|] eqn:E end.
  - unfold np_load. rewrite E. intros H; inversion H; subst. exact E.
  - intros H.
    bind_in H k_train w1 E1. bind_in H k_bnn w2 E2. bind_in H u w3 E3.
    bind_in H log_p w4 E4. bind_in H u' w5 E5.
    apply ret_Ok in H as [<- <-].
    unfold np_save in E5. inversion E5; subst; simpl.
    apply lookup_insert_eq.
Qed.

(** Once [get_log_p_k_given_omega_int] has returned, a further call in the
    world it left returns the same array and changes nothing, whatever
    sample counts it is given. *)
Lemma get_log_p_idempotent self n_samples n_mc_dropout w a w' n_samples' n_mc_dropout' :
  get_log_p_k_given_omega_int self n_samples n_mc_dropout w = (Ok a, w') ->
  get_log_p_k_given_omega_int self n_samples' n_mc_dropout' w' = (Ok a, w').
Proof. intros H. apply get_log_p_cached. eapply get_log_p_stored; eauto. Qed.

(** [get_kappa_log_weights] never looks at its path before computing: a
    call that returns has just invoked [iutils.get_kappa_log_weights],
    whatever the files held. *)
Lemma get_kappa_log_weights_recomputes self idx n_samples n_mc_dropout
    chain_path chain_kwargs w a w' :
  get_kappa_log_weights self idx n_samples n_mc_dropout chain_path chain_kwargs w
  = (Ok a, w') ->
  hd_error (calls w') = Some EvLogWeights
  /\ fs w' !! log_weights_path self idx = Some a.
Proof.
  unfold get_kappa_log_weights, log_weights_path. intros H.
  bind_in H k_bnn w1 E1. bind_in H log_p w2 E2. bind_in H u w3 E3.
  bind_in H omega w4 E4. bind_in H k_i w5 E5. bind_in H p_i w6 E6.
  bind_in H u' w7 E7. bind_in H lw w8 E8. bind_in H u'' w9 E9.
  apply ret_Ok in H as [<- <-].
  apply lift_Ok in E8 as [_ <-].
  unfold record in E7. inversion E7; subst.
  unfold np_save in E9. inversion E9; subst; simpl.
  split; [reflexivity|apply lookup_insert_eq].
Qed.

(** ** Shapes of freshly computed arrays *)

Lemma for_each_invariant {A S} (P : S -> Prop) (l : list A) (body : A -> S -> M S)
    s w s' w' :
  for_each l body s w = (Ok s', w') ->
  P s ->
  (forall a s w s' w', P s -> body a s w = (Ok s', w') -> P s') ->
  P s'.
Proof.
  intros H Hs Hb. revert s w Hs H.
  induction l as [|a l IH]; intros s w Hs H; simpl in H.
  - apply ret_Ok in H as [<- _]. exact Hs.
  - bind_in H s1 w1 E1. eapply IH; [|exact H]. eapply Hb; eauto.
Qed.

Lemma setitem_shape a sels val a' : setitem a sels val = Ok a' -> shape a' = shape a.
Proof.
  unfold setitem. destruct (select (shape a) sels 0); [|discriminate]; simpl.
  destruct (broadcast_to val _); [|discriminate]; simpl.
  intros H; inversion H; reflexivity.
Qed.

(** Without a cache file, the array [get_bnn_kappa] returns has the shape
    [n_test, Y_dim, n_mc_dropout * n_samples]. *)
Lemma get_bnn_kappa_shape self n_samples n_mc_dropout w a w' :
  fs w !! k_bnn_path self = None ->
  get_bnn_kappa self n_samples n_mc_dropout w = (Ok a, w') ->
  shape a = [dataset_len (val_dataset self); Y_dim self; n_mc_dropout * n_samples].
Proof.
  unfold get_bnn_kappa, k_bnn_path. intros Hnone H.
  rewrite (bindM_eq _ _ _ _ _ (path_exists_eq _ w)), Hnone in H.
  bind_in H batches w1 E1. bind_in H samples w2 E2.
  bind_in H reshaped w3 E3. bind_in H u w4 E4.
  apply ret_Ok in H as [<- _]. apply lift_Ok in E3 as [E3 _].
  assert (Hshape : shape samples
                   = [dataset_len (val_dataset self); n_mc_dropout; n_samples; Y_dim self]).
  { apply (for_each_invariant
             (fun s => shape s = [dataset_len (val_dataset self); n_mc_dropout;
                                  n_samples; Y_dim self])
             _ _ _ _ _ _ E2); [reflexivity|].
    intros ib s0 v0 s1 v1 Hs0 Hb. bind_in Hb batch v2 Eb.
    apply (for_each_invariant
             (fun s => shape s = [dataset_len (val_dataset self); n_mc_dropout;
                                  n_samples; Y_dim self])
             _ _ _ _ _ _ Hb); [exact Hs0|].
    intros mc s2 v3 s3 v4 Hs2 Hm.
    bind_in Hm u0 v5 F1. bind_in Hm u1 v6 F2. bind_in Hm mc_samples v7 F3.
    apply lift_Ok in Hm as [Hm _]. now rewrite (setitem_shape _ _ _ _ Hm). }
  unfold reshape, transpose_view, whole in E3. rewrite Hshape in E3.
  cbn [strides combine List.map nth dims view_shape fst count_infer List.filter
       length known_size fold_right] in E3.
  match type of E3 with
  | (if ?c then _ else _) = _ => destruct c eqn:Hc; [discriminate|]
  end.
  inversion E3; subst; clear E3. cbn [shape List.map].
  apply orb_false_iff in Hc as [Hk _]. apply Nat.eqb_neq in Hk.
  f_equal. f_equal. f_equal.
  unfold size_of; cbn [fold_right].
  set (n := dataset_len (val_dataset self)) in *. set (y := Y_dim self) in *.
  replace (n * (y * (n_mc_dropout * (n_samples * 1))))
    with (n_mc_dropout * n_samples * (n * (y * 1))) by lia.
  now apply Nat.div_mul.
Qed.

(** Without a cache file, the array [get_true_kappa] returns has one row
    per test example, for the training loader as for the test loader. *)
Lemma get_true_kappa_shape self is_train add_suffix save w a w' :
  fs w !! true_kappa_path self is_train add_suffix = None ->
  get_true_kappa self is_train add_suffix save w = (Ok a, w') ->
  shape a = [dataset_len (val_dataset self); Y_dim self].
Proof.
  unfold get_true_kappa, true_kappa_path. intros Hnone H.
  rewrite (bindM_eq _ _ _ _ _ (path_exists_eq _ w)), Hnone in H.
  bind_in H batches w1 E1. bind_in H tk w2 E2. bind_in H u w3 E3.
  apply ret_Ok in H as [<- _].
  apply (for_each_invariant
           (fun s => shape s = [dataset_len (val_dataset self); Y_dim self])
           _ _ _ _ _ _ E2); [reflexivity|].
  intros ib s0 v0 s1 v1 Hs0 Hb.
  bind_in Hb batch v2 Eb. bind_in Hb rows v3 Er.
  apply lift_Ok in Hb as [Hb _]. now rewrite (setitem_shape _ _ _ _ Hb).
Qed.

(** ** run_mcmc_for_omega_post hands nothing back *)

(** C8, as the code has it.  [run_mcmc_for_omega_post] returns exactly
    when [get_bnn_kappa], then [get_log_p_k_given_omega_int], then
    [iutils.get_omega_post] called with the two arrays, [mcmc_kwargs] and
    the bounds, return; and what it returns is [None], whatever
    [iutils.get_omega_post] handed back. *)
Theorem run_mcmc_returns_None self n_samples n_mc_dropout mcmc_kwargs
    bounds_lower bounds_upper w r w' :
  run_mcmc_for_omega_post self n_samples n_mc_dropout mcmc_kwargs
                          bounds_lower bounds_upper w = (Ok r, w')
  <-> r = PyNone
      /\ exists k_bnn w1 log_p w2 post,
           get_bnn_kappa self n_samples n_mc_dropout w = (Ok k_bnn, w1)
           /\ get_log_p_k_given_omega_int self n_samples n_mc_dropout w1 = (Ok log_p, w2)
           /\ (_ <~ record EvOmegaPost ;;
               iutils_get_omega_post k_bnn log_p mcmc_kwargs bounds_lower bounds_upper) w2
              = (Ok post, w').
Proof.
  unfold run_mcmc_for_omega_post. split.
  - intros E.
    bind_in E k_bnn w1 E1. bind_in E log_p w2 E2. bind_in E u w3 E3.
    bind_in E post w4 E4. apply ret_Ok in E as [<- <-].
    split; [reflexivity|]. exists k_bnn, w1, log_p, w2, post.
    split; [exact E1|]. split; [exact E2|].
    now rewrite (bindM_eq _ _ _ _ _ E3).
  - intros (-> & k_bnn & w1 & log_p & w2 & post & E1 & E2 & E3).
    rewrite (bindM_eq _ _ _ _ _ E1), (bindM_eq _ _ _ _ _ E2).
    bind_in E3 u w3 E3'. rewrite (bindM_eq _ _ _ _ _ E3'), (bindM_eq _ _ _ _ _ E3).
    reflexivity.
Qed.

(** ** Files touched by get_true_kappa *)

Lemma bindM_inv {A B} (m : M A) (k : A -> M B) w r w' :
  bindM m k w = (r, w') ->
  (exists e, m w = (Raise e, w') /\ r = Raise e)
  \/ (exists a w1, m w = (Ok a, w1) /\ k a w1 = (r, w')).
Proof.
  unfold bindM. destruct (m w) as [[a|e] w1].
  - intros H. right. now exists a, w1.
  - intros H; inversion H; subst. left. now exists e.
Qed.

Ltac keeps :=
  repeat first
    [ apply keeps_ret | apply keeps_lift | apply keeps_record
    | apply keeps_with_rng | apply keeps_loader_batches
    | apply keeps_for_each | apply keeps_bind
    | match goal with |- forall _, _ => intro end ].

Lemma get_true_kappa_other_files self is_train add_suffix save w r w' path :
  get_true_kappa self is_train add_suffix save w = (r, w') ->
  path <> true_kappa_path self is_train add_suffix ->
  fs w' !! path = fs w !! path.
Proof.
  unfold get_true_kappa, true_kappa_path. intros H Hne.
  rewrite (bindM_eq _ _ _ _ _ (path_exists_eq _ w)) in H.
  match type of H with context [fs w !! ?p] => destruct (fs w !! p) as [a0|] eqn:E end.
  - unfold np_load in H. rewrite E in H. now inversion H.
  - apply bindM_inv in H as [(e & E1 & _)|(batches & w1 & E1 & H)].
    { now rewrite (keeps_loader_batches _ _ _ _ E1). }
    rewrite <- (keeps_loader_batches _ _ _ _ E1).
    apply bindM_inv in H as [(e & E2 & _)|(tk & w2 & E2 & H)].
    { apply f_equal with (f := fun m => m !! path).
      revert E2. apply keeps_for_each. keeps. }
    assert (F2 : fs w2 = fs w1) by (revert E2; apply keeps_for_each; keeps).
    rewrite <- F2.
    apply bindM_inv in H as [(e & E3 & _)|(u & w3 & E3 & H)].
    { destruct save; inversion E3. }
    unfold ret in H. inversion H; subst r w'; clear H.
    destruct save; inversion E3; subst; simpl; [|reflexivity].
    now apply lookup_insert_ne.
Qed.

Lemma append_inj_l (p a b : string) : (p ++ a)%string = (p ++ b)%string -> a = b.
Proof. induction p as [|c p IH]; simpl; intros H; [exact H|]. inversion H; auto. Qed.

Lemma path_join_inj dir a b : path_join dir a = path_join dir b -> a = b.
Proof. unfold path_join. apply append_inj_l. Qed.

(** ** reset_val_dataset *)

(** What numpy promises of [Generator.choice(..., replace=False)]: [size]
    distinct members of the population. *)
Definition without_replacement : Prop :=
  forall g pop p size l,
    List.NoDup pop -> Generator_choice g pop p size = Ok l ->
    List.NoDup l /\ length l = size /\ List.incl l pop.

(** The positions of the test set that the manager's validation subset
    selects. *)
Definition selected_indices (self : InferenceManager) : list nat :=
  match val_dataset self with
  | Subset _ indices => indices
  | CosmoDC2Graph _ => []
  end.

Definition subsample_idx_path (self : InferenceManager) : string :=
  path_join (out_dir self) "subsample_idx.npy".

(** The selection of a run that finds no [subsample_idx.npy]: a function of
    the labels, the density and [n_val] alone. *)
Definition fresh_selection (subsample_pdf_func : ndarray -> result (list float))
    (n_val : nat) (true_kappa : ndarray) : result (list nat) :=
  let y_val := squeeze true_kappa in
  n <- len y_val ;;
  kde <- gaussian_kde y_val ;;
  target <- subsample_pdf_func y_val ;;
  dens <- kde_pdf kde y_val ;;
  p <- broadcast2 ValueError PrimFloat.div target dens ;;
  Generator_choice (default_rng 123) (seq 0 n)
                   (List.map (fun x => (x / np_sum p)%float) p) n_val.

Lemma reset_val_dataset_fresh self pdf n_val w self' w' true_kappa :
  fst (get_true_kappa self false "orig" true w) = Ok true_kappa ->
  fs w !! subsample_idx_path self = None ->
  reset_val_dataset self pdf n_val w = (Ok self', w') ->
  fresh_selection pdf n_val true_kappa = Ok (selected_indices self')
  /\ fs w' !! subsample_idx_path self = Some (of_idx (selected_indices self')).
Proof.
  unfold reset_val_dataset, subsample_idx_path. intros Hy Hnone H.
  bind_in H tk wa E0. rewrite E0 in Hy; simpl in Hy. inversion Hy; subst tk; clear Hy.
  rewrite (bindM_eq _ _ _ _ _ (path_exists_eq _ wa)) in H.
  rewrite (get_true_kappa_other_files _ _ _ _ _ _ _ _ E0) in H.
  2:{ unfold true_kappa_path. intros Heq. apply path_join_inj in Heq. discriminate. }
  rewrite Hnone in H.
  bind_in H idx wb Eb. bind_in H loader wc Ec. apply ret_Ok in H as [<- <-].
  apply lift_Ok in Ec as [_ <-].
  bind_in Eb n w1 E1. apply lift_Ok in E1 as [E1 <-].
  bind_in Eb kde w2 E2. apply lift_Ok in E2 as [E2 <-].
  bind_in Eb target w3 E3. apply lift_Ok in E3 as [E3 <-].
  bind_in Eb dens w4 E4. apply lift_Ok in E4 as [E4 <-].
  bind_in Eb p w5 E5. apply lift_Ok in E5 as [E5 <-].
  bind_in Eb chosen w6 E6. apply lift_Ok in E6 as [E6 <-].
  bind_in Eb u w7 E7. apply ret_Ok in Eb as [<- <-].
  unfold np_save in E7. inversion E7; subst; simpl.
  split; [|apply lookup_insert_eq].
  unfold fresh_selection. rewrite E1; simpl. rewrite E2; simpl. rewrite E3; simpl.
  rewrite E4; simpl. rewrite E5; simpl. exact E6.
Qed.


(* ------------------------------------------------------------------ *)
(** ** Counting the calls of a computation *)

Definition count_event (ev : event) (w : World) : nat :=
  length (List.filter (event_eqb ev) (calls w)).

(** A returning run of [m] records [k] more calls of [ev]. *)
Definition adds {A} (ev : event) (k : nat) (m : M A) : Prop :=
  forall w a w', m w = (Ok a, w') -> count_event ev w' = count_event ev w + k.

Lemma adds_ret {A} ev (a : A) : adds ev 0 (ret a).
Proof. intros w b w' H. apply ret_Ok in H as [_ <-]. lia. Qed.

Lemma adds_lift {A} ev (r : result A) : adds ev 0 (lift r).
Proof. intros w b w' H. apply lift_Ok in H as [_ <-]. lia. Qed.

Lemma adds_with_rng {A} ev (f : RNG -> A * RNG) : adds ev 0 (with_rng f).
Proof.
  intros w b w'. unfold with_rng. destruct (f (torch_rng w)).
  intros H; inversion H; subst. unfold count_event; simpl. lia.
Qed.

Lemma adds_record ev ev' : adds ev (if event_eqb ev ev' then 1 else 0) (record ev').
Proof.
  intros w b w' H. unfold record in H. inversion H; subst.
  unfold count_event; simpl. destruct (event_eqb ev ev'); simpl; lia.
Qed.

Lemma adds_np_save ev path a : adds ev 0 (np_save path a).
Proof.
  intros w b w' H. unfold np_save in H. inversion H; subst.
  unfold count_event; simpl. lia.
Qed.

Lemma adds_bind {A B} ev k1 k2 (m : M A) (f : A -> M B) :
  adds ev k1 m -> (forall a, adds ev k2 (f a)) -> adds ev (k1 + k2) (bindM m f).
Proof.
  intros Hm Hf w b w' H. bind_in H a w1 E.
  rewrite (Hf a _ _ _ H), (Hm _ _ _ E). lia.
Qed.

Lemma adds_for_each {A S} ev k (l : list A) (body : A -> S -> M S) s :
  (forall a s, adds ev k (body a s)) -> adds ev (length l * k) (for_each l body s).
Proof.
  intros Hb. revert s. induction l as [|a l IH]; intros s; simpl.
  - apply adds_ret.
  - apply adds_bind; auto.
Qed.

Lemma adds_loader_batches ev l : adds ev 0 (loader_batches l).
Proof.
  unfold loader_batches. change 0 with (0 + 0). apply adds_bind; [|intros; apply adds_ret].
  destruct (dl_sampler l); simpl.
  - apply adds_ret.
  - apply adds_with_rng.
  - change 0 with (0 + 0). apply adds_bind; [apply adds_with_rng|intros; apply adds_ret].
  - apply adds_with_rng.
Qed.

(** ** The loader of [load_dataset] for the test set *)

Lemma load_dataset_test_inv self0 dataset bs self :
  load_dataset_test self0 dataset bs = Ok self ->
  bs <> 0
  /\ val_dataset self = dataset
  /\ val_loader self = {| dl_dataset := dataset; dl_batch_size := bs;
                          dl_sampler := SequentialSampler; dl_drop_last := true |}
  /\ out_dir self = out_dir self0 /\ Y_dim self = Y_dim self0
  /\ Y_mean self = Y_mean self0 /\ Y_std self = Y_std self0.
Proof.
  unfold load_dataset_test, mkDataLoader.
  destruct (bs =? 0) eqn:E; [discriminate|]. simpl. intros H; inversion H; subst; simpl.
  apply Nat.eqb_neq in E. repeat split; auto.
Qed.

Lemma length_batched_full bs order :
  length (batched bs true order) = length order / bs.
Proof. unfold batched. simpl. now rewrite length_map, length_seq. Qed.

Lemma sequential_batches l w batches w' :
  dl_sampler l = SequentialSampler ->
  loader_batches l w = (Ok batches, w') ->
  batches = batched (dl_batch_size l) (dl_drop_last l) (seq 0 (dataset_len (dl_dataset l)))
  /\ w' = w.
Proof.
  unfold loader_batches. intros -> H. simpl in H.
  unfold bindM, ret in H. inversion H; auto.
Qed.

(** ** get_bnn_kappa on a cache miss *)

Lemma get_bnn_kappa_other_files self n_samples n_mc_dropout w r w' path :
  get_bnn_kappa self n_samples n_mc_dropout w = (r, w') ->
  path <> k_bnn_path self ->
  fs w' !! path = fs w !! path.
Proof.
  unfold get_bnn_kappa, k_bnn_path. intros H Hne.
  rewrite (bindM_eq _ _ _ _ _ (path_exists_eq _ w)) in H.
  match type of H with context [fs w !! ?p] => destruct (fs w !! p) as [a0|] eqn:E end.
  - unfold np_load in H. rewrite E in H. now inversion H.
  - apply bindM_inv in H as [(e & E1 & _)|(batches & w1 & E1 & H)].
    { now rewrite (keeps_loader_batches _ _ _ _ E1). }
    rewrite <- (keeps_loader_batches _ _ _ _ E1).
    apply bindM_inv in H as [(e & E2 & _)|(samples & w2 & E2 & H)].
    { apply f_equal with (f := fun m => m !! path).
      revert E2. apply keeps_for_each. keeps. }
    assert (F2 : fs w2 = fs w1) by (revert E2; apply keeps_for_each; keeps).
    rewrite <- F2.
    apply bindM_inv in H as [(e & E3 & _)|(reshaped & w3 & E3 & H)].
    { now inversion E3. }
    inversion E3; subst w3.
    apply bindM_inv in H as [(e & E4 & _)|(u & w4 & E4 & H)].
    { inversion E4. }
    unfold ret in H. inversion H; subst r w'; clear H.
    inversion E4; subst; simpl. now apply lookup_insert_ne.
Qed.

(** For a test set loaded by [load_dataset] with batch size [bs], a call
    that finds no [k_bnn.npy] and returns has made [n_mc_dropout] forward
    passes for each of the [n_test / bs] full batches and none for the
    remaining examples; the array has shape
    [n_test, Y_dim, n_mc_dropout * n_samples] and is stored in
    [k_bnn.npy]. *)
Theorem get_bnn_kappa_cache_miss self0 dataset bs self n_samples n_mc_dropout w a w' :
  load_dataset_test self0 dataset bs = Ok self ->
  fs w !! k_bnn_path self = None ->
  get_bnn_kappa self n_samples n_mc_dropout w = (Ok a, w') ->
  shape a = [dataset_len dataset; Y_dim self; n_mc_dropout * n_samples]
  /\ fs w' !! k_bnn_path self = Some a
  /\ count_event EvForward w'
     = count_event EvForward w + dataset_len dataset / bs * n_mc_dropout.
Proof.
  intros Hload Hnone Hrun.
  destruct (load_dataset_test_inv _ _ _ _ Hload) as (Hbs & Hds & Hld & _).
  split; [|split].
  - rewrite <- Hds. eapply get_bnn_kappa_shape; eauto.
  - eapply get_bnn_kappa_stored; eauto.
  - unfold get_bnn_kappa, k_bnn_path in *.
    rewrite (bindM_eq _ _ _ _ _ (path_exists_eq _ w)), Hnone in Hrun.
    bind_in Hrun batches w1 E1. bind_in Hrun samples w2 E2.
    bind_in Hrun reshaped w3 E3. bind_in Hrun u w4 E4.
    apply ret_Ok in Hrun as [_ <-]. apply lift_Ok in E3 as [_ <-].
    rewrite (adds_np_save EvForward _ _ _ _ _ E4), Nat.add_0_r.
    assert (Hs : dl_sampler (val_loader self) = SequentialSampler) by now rewrite Hld.
    destruct (sequential_batches _ _ _ _ Hs E1) as [Hb ->].
    rewrite Hld in Hb. simpl in Hb.
    assert (Hlen : length (enumerate batches) = dataset_len dataset / bs).
    { unfold enumerate. rewrite length_combine, length_seq, Nat.min_id.
      subst batches. now rewrite length_batched_full, length_seq. }
    rewrite <- Hlen.
    revert E2. apply adds_for_each.
    intros ib s0 v0 s1 v1 H. bind_in H batch v2 Eb. apply lift_Ok in Eb as [_ <-].
    eapply (adds_for_each EvForward 1) in H; [rewrite length_seq in H; lia|].
    clear H. intros mc s2 v3 s3 v4 H.
    bind_in H u0 v5 F1. bind_in H u1 v6 F2. bind_in H mc_samples v7 F3.
    apply lift_Ok in H as [_ <-].
    rewrite (adds_with_rng EvForward _ _ _ _ F3), (adds_with_rng EvForward _ _ _ _ F2).
    rewrite (adds_record EvForward EvForward _ _ _ F1). simpl. lia.
Qed.

(** ** Files written by get_true_kappa *)

(** [get_true_kappa] changes no file but its own, and with [save=False] it
    changes none at all, whether it returns or raises. *)
Theorem get_true_kappa_writes_own_file self is_train add_suffix save w r w' :
  get_true_kappa self is_train add_suffix save w = (r, w') ->
  (save = false -> fs w' = fs w)
  /\ (forall path, path <> true_kappa_path self is_train add_suffix ->
                   fs w' !! path = fs w !! path).
Proof.
  intros H. split.
  - intros ->. revert H. unfold get_true_kappa.
    apply keeps_bind; [intros v1 r1 v2 E; now inversion E|].
    intros [|].
    + intros v1 r1 v2 E. unfold np_load in E. destruct (fs v1 !! _); now inversion E.
    + keeps.
  - intros path Hne. eapply get_true_kappa_other_files; eauto.
Qed.

(** ** get_log_p_k_given_omega_int on a cache miss *)

(** A call that finds no [log_p_k_given_omega_int.npy] and returns leaves
    three artifacts behind, [k_train.npy], [k_bnn.npy] and the log ratio,
    and the stored log ratio is the one [iutils] computes from the two
    stored arrays. *)
Theorem get_log_p_cache_miss self n_samples n_mc_dropout w a w' :
  fs w !! log_p_path self = None ->
  get_log_p_k_given_omega_int self n_samples n_mc_dropout w = (Ok a, w') ->
  exists k_train k_bnn,
    fs w' !! true_kappa_path self true EmptyString = Some k_train
    /\ fs w' !! k_bnn_path self = Some k_bnn
    /\ iutils_get_log_p_k_given_omega_int (squeeze k_train) (squeeze k_bnn) = Ok a
    /\ fs w' !! log_p_path self = Some a.
Proof.
  intros Hnone H. pose proof (get_log_p_stored _ _ _ _ _ _ H) as Hstored.
  unfold get_log_p_k_given_omega_int, log_p_path in *.
  rewrite (bindM_eq _ _ _ _ _ (path_exists_eq _ w)), Hnone in H.
  bind_in H k_train w1 E1. bind_in H k_bnn w2 E2. bind_in H u w3 E3.
  bind_in H log_p w4 E4. bind_in H u' w5 E5.
  apply ret_Ok in H as [<- <-]. apply lift_Ok in E4 as [E4 <-].
  exists k_train, k_bnn. repeat split; auto.
  - unfold np_save in E5. inversion E5; subst; simpl.
    rewrite lookup_insert_ne
      by (unfold true_kappa_path; intros Heq; apply path_join_inj in Heq; discriminate).
    unfold record in E3. inversion E3; subst; simpl.
    rewrite (get_bnn_kappa_other_files _ _ _ _ _ _ _ E2)
      by (unfold true_kappa_path, k_bnn_path; intros Heq;
          apply path_join_inj in Heq; discriminate).
    eapply get_true_kappa_stored; eauto.
  - unfold np_save in E5. inversion E5; subst; simpl.
    rewrite lookup_insert_ne
      by (unfold k_bnn_path; intros Heq; apply path_join_inj in Heq; discriminate).
    unfold record in E3. inversion E3; subst; simpl.
    eapply get_bnn_kappa_stored; eauto.
Qed.

(** ** get_kappa_log_weights out of range *)

(** With a freshly computed [k_bnn], an index at or beyond the number of
    test examples never yields log weights: the call raises. *)
Theorem get_kappa_log_weights_out_of_range self idx n_samples n_mc_dropout
    chain_path chain_kwargs w :
  fs w !! k_bnn_path self = None ->
  dataset_len (val_dataset self) <= idx ->
  returns (fst (get_kappa_log_weights self idx n_samples n_mc_dropout
                                      chain_path chain_kwargs w)) = false.
Proof.
  intros Hnone Hidx.
  destruct (get_kappa_log_weights self idx n_samples n_mc_dropout chain_path
                                  chain_kwargs w) as [[a|e] w'] eqn:E;
    [exfalso|reflexivity].
  unfold get_kappa_log_weights in E.
  bind_in E k_bnn w1 E1. bind_in E log_p w2 E2. bind_in E u w3 E3.
  bind_in E omega w4 E4. bind_in E k_i w5 E5.
  apply lift_Ok in E5 as [E5 _].
  pose proof (get_bnn_kappa_shape _ _ _ _ _ _ Hnone E1) as Hshape.
  unfold getitem in E5. rewrite Hshape in E5. cbn [select hd] in E5.
  apply Nat.ltb_ge in Hidx. rewrite Hidx in E5. discriminate.
Qed.

(** ** reset_val_dataset and its file *)

Lemma tolist_of_idx l : tolist_idx (of_idx l) = Ok l.
Proof.
  unfold tolist_idx, of_idx. simpl.
  induction l as [|i l IH]; simpl; [reflexivity|]. now rewrite IH.
Qed.

Lemma reset_val_dataset_cached self pdf n_val w self' w' a :
  fs w !! subsample_idx_path self = Some a ->
  reset_val_dataset self pdf n_val w = (Ok self', w') ->
  tolist_idx a = Ok (selected_indices self')
  /\ fs w' !! subsample_idx_path self = Some a.
Proof.
  unfold reset_val_dataset, subsample_idx_path. intros Hsome H.
  bind_in H tk wa E0.
  rewrite (bindM_eq _ _ _ _ _ (path_exists_eq _ wa)) in H.
  assert (Hwa : fs wa !! path_join (out_dir self) "subsample_idx.npy" = Some a).
  { rewrite (get_true_kappa_other_files _ _ _ _ _ _ _ _ E0); [exact Hsome|].
    unfold true_kappa_path. intros Heq. apply path_join_inj in Heq. discriminate. }
  rewrite Hwa in H.
  bind_in H idx wb Eb. bind_in H loader wc Ec. apply ret_Ok in H as [<- <-].
  apply lift_Ok in Ec as [_ <-].
  bind_in Eb a' w1 E1. apply lift_Ok in Eb as [Eb <-].
  unfold np_load in E1. rewrite Hwa in E1. inversion E1; subst a' w1.
  split; [exact Eb|exact Hwa].
Qed.

Lemma reset_val_dataset_leaves_file self pdf n_val w self' w' :
  reset_val_dataset self pdf n_val w = (Ok self', w') ->
  exists a, fs w' !! subsample_idx_path self = Some a
            /\ tolist_idx a = Ok (selected_indices self').
Proof.
  intros H.
  destruct (fs w !! subsample_idx_path self) as [a|] eqn:Hfile.
  - exists a. destruct (reset_val_dataset_cached _ _ _ _ _ _ _ Hfile H). auto.
  - destruct (get_true_kappa self false "orig" true w) as [[tk|e] wa] eqn:E0.
    + destruct (reset_val_dataset_fresh self pdf n_val w self' w' tk) as [_ Hsaved];
        [now rewrite E0|exact Hfile|exact H|].
      eexists; split; [exact Hsaved|apply tolist_of_idx].
    + unfold reset_val_dataset, bindM in H. rewrite E0 in H. discriminate.
Qed.

(** The selection is persisted: a later run over the same output directory
    takes the positions of the earlier run from [subsample_idx.npy],
    whatever density and [n_val] it is given. *)
Theorem reset_val_dataset_reuses_selection self1 pdf1 n_val1 w self1' w1
    self2 pdf2 n_val2 self2' w2 :
  reset_val_dataset self1 pdf1 n_val1 w = (Ok self1', w1) ->
  out_dir self2 = out_dir self1 ->
  reset_val_dataset self2 pdf2 n_val2 w1 = (Ok self2', w2) ->
  selected_indices self2' = selected_indices self1'.
Proof.
  intros H1 Hdir H2.
  destruct (reset_val_dataset_leaves_file _ _ _ _ _ _ H1) as (a & Hfile & Hsel).
  assert (Hfile2 : fs w1 !! subsample_idx_path self2 = Some a)
    by (unfold subsample_idx_path in *; now rewrite Hdir).
  destruct (reset_val_dataset_cached _ _ _ _ _ _ _ Hfile2 H2) as [Hsel2 _].
  congruence.
Qed.

(* ------------------------------------------------------------------ *)
(** ** get_true_kappa over the test loader *)

Lemma comprehension_compose {A B C} (f : A -> result B) (g : B -> result C) l bs cs :
  comprehension f l = Ok bs -> comprehension g bs = Ok cs ->
  comprehension (fun a => b <- f a ;; g b) l = Ok cs.
Proof.
  revert bs cs. induction l as [|a l IH]; simpl; intros bs cs Hf Hg.
  - inversion Hf; subst. exact Hg.
  - destruct (f a) as [b|] eqn:Ea; [|discriminate]. simpl in Hf.
    destruct (comprehension f l) as [bs'|] eqn:El; [|discriminate]. simpl in Hf.
    inversion Hf; subst. simpl in Hg.
    destruct (g b) as [c|] eqn:Eg; [|discriminate]. simpl in Hg.
    destruct (comprehension g bs') as [cs'|] eqn:Egl; [|discriminate]. simpl in Hg.
    inversion Hg; subst. cbn [bind]. rewrite Eg. cbn [bind].
    rewrite (IH _ _ eq_refl Egl). reflexivity.
Qed.

Lemma comprehension_app {A B} (f : A -> result B) l1 l2 b1 b2 :
  comprehension f l1 = Ok b1 -> comprehension f l2 = Ok b2 ->
  comprehension f (l1 ++ l2) = Ok (b1 ++ b2).
Proof.
  revert b1. induction l1 as [|a l1 IH]; simpl; intros b1 H1 H2.
  - inversion H1; subst. exact H2.
  - destruct (f a) as [b|]; [|discriminate]. simpl in *.
    destruct (comprehension f l1) as [b1'|]; [|discriminate]. simpl in H1.
    inversion H1; subst. now rewrite (IH _ eq_refl H2).
Qed.

Lemma comprehension_each {A B} (f : A -> result B) (Q : A -> Prop) (P : B -> Prop) l bs :
  comprehension f l = Ok bs -> Forall Q l ->
  (forall a b, Q a -> f a = Ok b -> P b) -> Forall P bs.
Proof.
  intros H HQ HP. revert bs H. induction HQ as [|a l Ha _ IH]; simpl; intros bs H.
  - inversion H. constructor.
  - destruct (f a) as [b|] eqn:Ea; [|discriminate]. simpl in H.
    destruct (comprehension f l) as [bs'|]; [|discriminate]. simpl in H.
    inversion H; subst. constructor; eauto.
Qed.

Lemma length_concat_rows {A} (rows : list (list A)) Y :
  Forall (fun r => length r = Y) rows -> length (concat rows) = length rows * Y.
Proof.
  induction 1 as [|r rows Hr _ IH]; simpl; [reflexivity|].
  rewrite length_app, Hr, IH. reflexivity.
Qed.

Lemma combine_with_map {A B} (f : A -> B) (l : list A) :
  combine l (List.map f l) = List.map (fun x => (x, f x)) l.
Proof. induction l as [|a l IH]; simpl; [reflexivity|]. now rewrite IH. Qed.

Lemma firstn_of_seq k a len : k <= len -> firstn k (seq a len) = seq a k.
Proof.
  revert a len. induction k as [|k IH]; intros a len H; [reflexivity|].
  destruct len as [|len]; [lia|]. simpl. rewrite IH by lia. reflexivity.
Qed.

(** The batches of a sequential pass that drops the last, shorter one:
    batch [i] holds the positions [i * bs .. i * bs + bs). *)
Lemma enumerate_full_batches bs n :
  bs <> 0 ->
  enumerate (batched bs true (seq 0 n))
  = List.map (fun i => (i, seq (i * bs) bs)) (seq 0 (n / bs)).
Proof.
  intros Hbs. unfold enumerate, batched. cbn [orb].
  rewrite !length_map, !length_seq, combine_with_map.
  apply map_ext_in. intros i Hi. apply in_seq in Hi. f_equal.
  assert (bs * (n / bs) <= n) by (now apply Nat.Div0.mul_div_le).
  rewrite skipn_seq, firstn_of_seq by nia. reflexivity.
Qed.

(** The de-standardized label row of the example at position [r]. *)
Definition label_row (self : InferenceManager) (d : Dataset) (r : nat)
  : result (list float) :=
  e <- dataset_get d r ;; destandardize_row (Y_std self) (Y_mean self) (ex_y e).

(** The body of the loop of [get_true_kappa] over the loader of [d]. *)
Definition store_batch (self : InferenceManager) (d : Dataset)
    (ib : nat * list nat) (true_kappa : ndarray) : M ndarray :=
  let i := fst ib in
  batch <~ lift (collate d (snd ib)) ;;
  let B := length batch in
  rows <~ lift (destandardize batch (Y_std self) (Y_mean self)) ;;
  lift (setitem true_kappa [Range (i * B) ((i + 1) * B); All] rows).

Lemma destandardize_row_length std mean y Y row :
  length y = Y -> length std = Y -> length mean = Y ->
  destandardize_row std mean y = Ok row -> length row = Y.
Proof.
  intros Hy Hstd Hmean. unfold destandardize_row, broadcast2.
  rewrite Hy, Hstd, Nat.eqb_refl. cbn [bind].
  rewrite length_map, length_combine, Hy, Hstd, Nat.min_id, Hmean, Nat.eqb_refl.
  intros [= <-].
  repeat rewrite ?length_map, ?length_combine.
  rewrite Hy, Hstd, Hmean. lia.
Qed.

Lemma store_batch_rows self d n Y bs i pre post s w s1 w1 :
  bs <> 0 -> length (Y_mean self) = Y -> length (Y_std self) = Y ->
  (forall r e, dataset_get d r = Ok e -> length (ex_y e) = Y) ->
  (i + 1) * bs <= n ->
  s = {| shape := [n; Y]; flat := pre ++ repeat Uninit (bs * Y) ++ post |} ->
  length pre = i * bs * Y ->
  store_batch self d (i, seq (i * bs) bs) s w = (Ok s1, w1) ->
  exists rows,
    comprehension (label_row self d) (seq (i * bs) bs) = Ok rows
    /\ length (concat rows) = bs * Y
    /\ s1 = {| shape := [n; Y]; flat := pre ++ List.map Flt (concat rows) ++ post |}.
Proof.
  intros Hbs Hmean Hstd Hy Hfit -> Hpre H.
  unfold store_batch in H. cbn [fst snd] in H.
  bind_in H batch v1 Eb. apply lift_Ok in Eb as [Eb _].
  bind_in H val v2 Ev. apply lift_Ok in Ev as [Ev _].
  apply lift_Ok in H as [H _].
  assert (Hlen : length batch = bs).
  { unfold collate in Eb.
    rewrite (ProcessingUtils.comprehension_length _ _ _ Eb). apply length_seq. }
  unfold destandardize in Ev.
  destruct (comprehension (fun e => destandardize_row (Y_std self) (Y_mean self) (ex_y e))
                          batch) as [rows|] eqn:Er; [|discriminate].
  cbn [bind] in Ev.
  assert (Hbatch : Forall (fun e => length (ex_y e) = Y) batch).
  { unfold collate in Eb.
    apply (comprehension_each _ (fun _ => True) _ _ _ Eb).
    - apply List.Forall_forall. auto.
    - intros r e _ He. eauto. }
  assert (Hrows : Forall (fun r => length r = Y) rows).
  { apply (comprehension_each _ _ _ _ _ Er Hbatch).
    intros e row He Hrow.
    exact (destandardize_row_length _ _ _ _ _ He Hstd Hmean Hrow). }
  assert (Hn : length rows = bs).
  { now rewrite (ProcessingUtils.comprehension_length _ _ _ Er). }
  assert (Hw : length (hd [] rows) = Y).
  { destruct rows as [|r rows]; [simpl in Hn; congruence|]. now inversion Hrows. }
  rewrite Hw in Ev.
  destruct (forallb _ rows); [|discriminate].
  inversion Ev; subst val; clear Ev.
  assert (Hcat : length (concat rows) = bs * Y)
    by (now rewrite (length_concat_rows rows Y Hrows), Hn).
  exists rows. split; [|split; [exact Hcat|]].
  - unfold collate in Eb. exact (comprehension_compose _ _ _ _ _ Eb Er).
  - rewrite Hlen in H. unfold of_floats in H.
    rewrite (setitem_rows n Y (i * bs) ((i + 1) * bs) bs pre (repeat Uninit (bs * Y)) post)
      in H; try lia.
    + now inversion H.
    + apply repeat_length.
    + now rewrite length_map.
Qed.

Lemma store_batches_rows self d n Y bs post len :
  bs <> 0 -> length (Y_mean self) = Y -> length (Y_std self) = Y ->
  (forall r e, dataset_get d r = Ok e -> length (ex_y e) = Y) ->
  forall i0 pre s w s' w',
    (i0 + len) * bs <= n ->
    s = {| shape := [n; Y]; flat := pre ++ repeat Uninit (len * bs * Y) ++ post |} ->
    length pre = i0 * bs * Y ->
    for_each (List.map (fun i => (i, seq (i * bs) bs)) (seq i0 len))
             (store_batch self d) s w = (Ok s', w') ->
    exists rows,
      comprehension (label_row self d) (seq (i0 * bs) (len * bs)) = Ok rows
      /\ length (concat rows) = len * bs * Y
      /\ s' = {| shape := [n; Y]; flat := pre ++ List.map Flt (concat rows) ++ post |}.
Proof.
  intros Hbs Hmean Hstd Hy.
  induction len as [|len IH]; intros i0 pre s w s' w' Hfit Hs Hpre H.
  - simpl in H. apply ret_Ok in H as [<- _]. exists []. simpl in *. auto.
  - cbn [seq List.map for_each] in H. bind_in H s1 w1 E1.
    replace (S len * bs * Y) with (bs * Y + len * bs * Y) in Hs by lia.
    rewrite repeat_app, <- app_assoc in Hs.
    destruct (store_batch_rows self d n Y bs i0 pre _ s w s1 w1
                Hbs Hmean Hstd Hy ltac:(lia) Hs Hpre E1) as (rows1 & Hr1 & Hc1 & Hs1).
    rewrite !app_assoc in Hs1. rewrite <- (app_assoc _ _ post) in Hs1.
    destruct (IH (S i0) _ s1 w1 s' w' ltac:(lia) Hs1
                ltac:(rewrite length_app, length_map, Hc1, Hpre; lia) H)
      as (rows2 & Hr2 & Hc2 & Hs2).
    exists (rows1 ++ rows2). split; [|split].
    + replace (S len * bs) with (bs + len * bs) by lia. rewrite seq_app.
      apply comprehension_app; [exact Hr1|].
      replace (i0 * bs + bs) with (S i0 * bs) by lia. exact Hr2.
    + rewrite concat_app, length_app, Hc1, Hc2. lia.
    + rewrite Hs2, concat_app, map_app, <- !app_assoc. reflexivity.
Qed.

(** The array that [get_true_kappa] computes over the loader of
    [load_dataset]: the label rows of the full batches, then cells that
    were never written. *)
Lemma get_true_kappa_test_flat self0 dataset bs self add_suffix save w a w' :
  load_dataset_test self0 dataset bs = Ok self ->
  length (Y_mean self) = Y_dim self ->
  length (Y_std self) = Y_dim self ->
  (forall r e, dataset_get dataset r = Ok e -> length (ex_y e) = Y_dim self) ->
  fs w !! true_kappa_path self false add_suffix = None ->
  get_true_kappa self false add_suffix save w = (Ok a, w') ->
  exists rows,
    comprehension (label_row self dataset)
                  (seq 0 (dataset_len dataset / bs * bs)) = Ok rows
    /\ a = {| shape := [dataset_len dataset; Y_dim self];
              flat := List.map Flt (concat rows)
                      ++ repeat Uninit
                           ((dataset_len dataset - dataset_len dataset / bs * bs)
                            * Y_dim self) |}.
Proof.
  intros Hload Hmean Hstd Hy Hnone Hrun.
  destruct (load_dataset_test_inv _ _ _ _ Hload) as (Hbs & Hds & Hld & _).
  unfold get_true_kappa, true_kappa_path in *.
  rewrite (bindM_eq _ _ _ _ _ (path_exists_eq _ w)), Hnone in Hrun.
  bind_in Hrun batches w1 E1. bind_in Hrun tk w2 E2. bind_in Hrun u w3 E3.
  apply ret_Ok in Hrun as [<- _].
  assert (Hs : dl_sampler (val_loader self) = SequentialSampler) by now rewrite Hld.
  destruct (sequential_batches _ _ _ _ Hs E1) as [Hb ->].
  rewrite Hld in Hb. cbn [dl_batch_size dl_drop_last dl_dataset] in Hb. subst batches.
  rewrite Hld, Hds in E2. cbn [dl_dataset] in E2.
  rewrite (enumerate_full_batches bs _ Hbs) in E2.
  set (n := dataset_len dataset) in *. set (Y := Y_dim self) in *.
  assert (Hq : n / bs * bs <= n) by (rewrite Nat.mul_comm; now apply Nat.Div0.mul_div_le).
  change (for_each (List.map (fun i => (i, seq (i * bs) bs)) (seq 0 (n / bs)))
                   (store_batch self dataset) (empty [n; Y]) w = (Ok tk, w2)) in E2.
  destruct (store_batches_rows self dataset n Y bs
              (repeat Uninit ((n - n / bs * bs) * Y)) (n / bs) Hbs Hmean Hstd Hy
              0 [] (empty [n; Y]) w tk w2) as (rows & Hr & _ & Htk); auto.
  - unfold empty. f_equal. cbn [size_of fold_right app].
    rewrite <- repeat_app. f_equal. nia.
  - exists rows. split; [exact Hr|exact Htk].
Qed.

(** For a test set of [n] examples loaded by [load_dataset] with batch size
    [bs], a call that finds no cache file and returns hands back an
    [n]-by-[Y_dim] array whose first [n / bs * bs] rows are the
    de-standardized labels of the examples in dataset order and whose
    remaining rows were never written; with [save] that array is the
    content of the cache file afterwards. *)
Theorem get_true_kappa_test_rows self0 dataset bs self add_suffix save w a w' :
  load_dataset_test self0 dataset bs = Ok self ->
  length (Y_mean self) = Y_dim self ->
  length (Y_std self) = Y_dim self ->
  (forall r e, dataset_get dataset r = Ok e -> length (ex_y e) = Y_dim self) ->
  fs w !! true_kappa_path self false add_suffix = None ->
  get_true_kappa self false add_suffix save w = (Ok a, w') ->
  exists rows,
    comprehension (label_row self dataset)
                  (seq 0 (dataset_len dataset / bs * bs)) = Ok rows
    /\ a = {| shape := [dataset_len dataset; Y_dim self];
              flat := List.map Flt (concat rows)
                      ++ repeat Uninit
                           ((dataset_len dataset - dataset_len dataset / bs * bs)
                            * Y_dim self) |}
    /\ (save = true -> fs w' !! true_kappa_path self false add_suffix = Some a).
Proof.
  intros Hload Hmean Hstd Hy Hnone Hrun.
  destruct (get_true_kappa_test_flat _ _ _ _ _ _ _ _ _ Hload Hmean Hstd Hy Hnone Hrun)
    as (rows & Hrows & Ha).
  exists rows. split; [exact Hrows|]. split; [exact Ha|].
  intros ->. exact (get_true_kappa_stored _ _ _ _ _ _ Hrun).
Qed.

(* ------------------------------------------------------------------ *)
(** ** reset_val_dataset over freshly computed labels *)

Lemma reset_val_dataset_reads_labels self pdf n_val w self' w' :
  reset_val_dataset self pdf n_val w = (Ok self', w') ->
  exists true_kappa wa, get_true_kappa self false "orig" true w = (Ok true_kappa, wa).
Proof.
  unfold reset_val_dataset. intros H. bind_in H tk wa E0. now exists tk, wa.
Qed.

(** C10, as the code has it.  Two managers hold the same test set, loaded
    by [load_dataset] with a batch size that divides its length, and the
    same label statistics; they may differ in seed, output directory and
    generator state.  Two runs that find neither [k_valorig.npy] nor
    [subsample_idx.npy] and return, select the same positions; given
    numpy's contract for [Generator.choice(replace=False)] these are
    [n_val] distinct positions of the test set. *)
Theorem reset_val_dataset_deterministic self0 self0' dataset bs self1 self2 w1 w2
    pdf n_val self1' w1' self2' w2' :
  without_replacement ->
  load_dataset_test self0 dataset bs = Ok self1 ->
  load_dataset_test self0' dataset bs = Ok self2 ->
  dataset_len dataset mod bs = 0 ->
  dataset_len dataset <> 1 ->
  Y_dim self2 = Y_dim self1 -> Y_mean self2 = Y_mean self1 -> Y_std self2 = Y_std self1 ->
  length (Y_mean self1) = Y_dim self1 ->
  length (Y_std self1) = Y_dim self1 ->
  (forall r e, dataset_get dataset r = Ok e -> length (ex_y e) = Y_dim self1) ->
  fs w1 !! true_kappa_path self1 false "orig" = None ->
  fs w2 !! true_kappa_path self2 false "orig" = None ->
  fs w1 !! subsample_idx_path self1 = None ->
  fs w2 !! subsample_idx_path self2 = None ->
  reset_val_dataset self1 pdf n_val w1 = (Ok self1', w1') ->
  reset_val_dataset self2 pdf n_val w2 = (Ok self2', w2') ->
  selected_indices self1' = selected_indices self2'
  /\ List.NoDup (selected_indices self1')
  /\ length (selected_indices self1') = n_val
  /\ Forall (fun i => i < dataset_len dataset) (selected_indices self1').
Proof.
  intros Hchoice L1 L2 Hmod Hone HY Hm Hs Hlm Hls Hy N1 N2 S1 S2 H1 H2.
  destruct (load_dataset_test_inv _ _ _ _ L1) as (Hbs & _).
  destruct (reset_val_dataset_reads_labels _ _ _ _ _ _ H1) as (tk1 & wa1 & E1).
  destruct (reset_val_dataset_reads_labels _ _ _ _ _ _ H2) as (tk2 & wa2 & E2).
  destruct (get_true_kappa_test_flat _ _ _ _ _ _ _ _ _ L1 Hlm Hls Hy N1 E1)
    as (rows1 & Hr1 & Htk1).
  assert (Hlm2 : length (Y_mean self2) = Y_dim self2) by now rewrite Hm, HY.
  assert (Hls2 : length (Y_std self2) = Y_dim self2) by now rewrite Hs, HY.
  assert (Hy2 : forall r e, dataset_get dataset r = Ok e -> length (ex_y e) = Y_dim self2)
    by (intros r e He; rewrite HY; eauto).
  destruct (get_true_kappa_test_flat _ _ _ _ _ _ _ _ _ L2 Hlm2 Hls2 Hy2 N2 E2)
    as (rows2 & Hr2 & Htk2).
  assert (Hrows : rows2 = rows1).
  { unfold label_row in Hr1, Hr2. rewrite Hm, Hs in Hr2. congruence. }
  assert (Hfull : dataset_len dataset / bs * bs = dataset_len dataset).
  { apply Nat.Div0.div_exact in Hmod. lia. }
  assert (Htk : tk2 = tk1) by (rewrite Htk1, Htk2, Hrows, HY; reflexivity).
  clear Htk2. subst tk2.
  assert (F1 : fst (get_true_kappa self1 false "orig" true w1) = Ok tk1) by now rewrite E1.
  assert (F2 : fst (get_true_kappa self2 false "orig" true w2) = Ok tk1) by now rewrite E2.
  destruct (reset_val_dataset_fresh _ _ _ _ _ _ _ F1 S1 H1) as [G1 _].
  destruct (reset_val_dataset_fresh _ _ _ _ _ _ _ F2 S2 H2) as [G2 _].
  split; [congruence|].
  unfold fresh_selection in G1.
  assert (Hlen : len (squeeze tk1) = Ok (dataset_len dataset)).
  { rewrite Htk1. unfold len, squeeze. cbn [shape List.filter].
    destruct (dataset_len dataset =? 1) eqn:E; [apply Nat.eqb_eq in E; contradiction|].
    reflexivity. }
  rewrite Hlen in G1. cbn [bind] in G1.
  destruct (gaussian_kde (squeeze tk1)) as [kde|]; [|discriminate]; cbn [bind] in G1.
  destruct (pdf (squeeze tk1)) as [target|]; [|discriminate]; cbn [bind] in G1.
  destruct (kde_pdf kde (squeeze tk1)) as [dens|]; [|discriminate]; cbn [bind] in G1.
  destruct (broadcast2 ValueError PrimFloat.div target dens) as [p|];
    [|discriminate]; cbn [bind] in G1.
  destruct (Hchoice _ _ _ _ _ (List.seq_NoDup (dataset_len dataset) 0) G1)
    as (Hnd & Hlen' & Hincl).
  split; [exact Hnd|]. split; [exact Hlen'|].
  apply List.Forall_forall. intros i Hi. apply Hincl, in_seq in Hi. lia.
Qed.

End Manager.

(* ------------------------------------------------------------------ *)
(** ** get_idx *)

(** [orig_list.index(item)]: the first position of [item]; ValueError when
    it does not occur. *)
Fixpoint list_index (item : string) (l : list string) : result nat :=
  match l with
  | [] => Raise ValueError
  | x :: l' =>
      if String.eqb x item then Ok 0
      else i <- list_index item l' ;; Ok (S i)
  end.

Definition get_idx (orig_list sub_list : list string) : result (list nat) :=
  comprehension (fun item => list_index item orig_list) sub_list.

Lemma list_index_first item l i :
  list_index item l = Ok i ->
  nth_error l i = Some item /\ forall j, j < i -> nth_error l j <> Some item.
Proof.
  revert i. induction l as [|x l IH]; simpl; intros i H; [discriminate|].
  destruct (String.eqb x item) eqn:E.
  - inversion H; subst. apply String.eqb_eq in E. subst. split; [reflexivity|].
    intros j Hj. lia.
  - destruct (list_index item l) as [i'|]; [|discriminate]. simpl in H.
    inversion H; subst. destruct (IH i' eq_refl) as [Hnth Hfirst].
    split; [exact Hnth|]. intros [|j] Hj; simpl.
    + apply String.eqb_neq in E. congruence.
    + apply Hfirst. lia.
Qed.

Lemma list_index_absent item l : ~ In item l -> list_index item l = Raise ValueError.
Proof.
  induction l as [|x l IH]; simpl; intros H; [reflexivity|].
  destruct (String.eqb x item) eqn:E.
  - apply String.eqb_eq in E. tauto.
  - rewrite IH by tauto. reflexivity.
Qed.

Lemma list_index_raises item l e : list_index item l = Raise e -> e = ValueError.
Proof.
  induction l as [|x l IH]; simpl; [now inversion 1|].
  destruct (String.eqb x item); [discriminate|].
  destruct (list_index item l); simpl; [discriminate|]. intros H; inversion H; subst. auto.
Qed.

(** A returned index list has one entry per requested item, and each entry
    is the first position of its item in [orig_list]. *)
Theorem get_idx_first_positions (orig_list sub_list : list string) (idx : list nat) :
  get_idx orig_list sub_list = Ok idx ->
  Forall2 (fun item i => nth_error orig_list i = Some item
                         /\ forall j, j < i -> nth_error orig_list j <> Some item)
          sub_list idx.
Proof.
  unfold get_idx. revert idx. induction sub_list as [|item sub IH]; simpl; intros idx H.
  - inversion H. constructor.
  - destruct (list_index item orig_list) as [i|] eqn:Ei; [|discriminate]. simpl in H.
    destruct (comprehension _ sub) as [idx'|]; [|discriminate]. simpl in H.
    inversion H; subst. constructor; [now apply list_index_first|now apply IH].
Qed.

(** An item that is not in [orig_list] makes [get_idx] raise ValueError. *)
Theorem get_idx_missing_item (orig_list sub_list : list string) :
  Exists (fun item => ~ In item orig_list) sub_list ->
  get_idx orig_list sub_list = Raise ValueError.
Proof.
  intros H. unfold get_idx. induction H as [item sub Hitem | item sub _ IH]; simpl.
  - now rewrite (list_index_absent item orig_list Hitem).
  - destruct (list_index item orig_list) as [i|e] eqn:Ei; simpl.
    + now rewrite IH.
    + f_equal. eapply list_index_raises; eauto.
Qed.

(* ------------------------------------------------------------------ *)
(** ** A test bed

    Sightline examples are numbered and carry one standardized target.  The
    collaborators are small deterministic stand-ins: generators are
    counters, a forward pass returns its batch, and the sampling head
    returns, for example [e], generator state [g] and draw [s], the value
    [Y_mean + 100 e + 10 g + s]. *)

Module Demo.

Definition Graph : Type := nat.
Definition RNG : Type := nat.
Definition Pred : Type := Batch Graph.
Definition Kwargs : Type := unit.
Definition KDE : Type := ndarray.

Definition randperm (n : nat) (g : RNG) : list nat * RNG := (rev (seq 0 n), S g).
Definition multinomial (weights : list float) (n : nat) (g : RNG) : list nat * RNG :=
  (repeat 0 n, S g).
Definition manual_seed (z : Z) : RNG := Z.to_nat z.
(** The tensors of the test bed are float64. *)
Definition tensor_mul : float -> float -> float := PrimFloat.mul.
Definition tensor_add : float -> float -> float := PrimFloat.add.
Definition forward (batch : Batch Graph) (g : RNG) : Pred * RNG := (batch, S g).
Definition rows (u : Pred) : nat := length u.

Definition sample (u : Pred) (Y_mean Y_std : list float) (n_samples : nat) (g : RNG)
  : ndarray * RNG :=
  (of_floats [length u; n_samples; length Y_mean]
     (flat_map
        (fun e => flat_map
           (fun s => List.map
              (fun m => (m + float_of_nat (100 * ex_graph Graph e + 10 * g + s))%float)
              Y_mean)
           (seq 0 n_samples))
        u),
   S g).

Definition omega : ndarray := of_floats [2; 2] [0.01; 0.05; 0.02; 0.04]%float.

Definition log_p (k_train k_bnn : ndarray) : result ndarray := Ok k_bnn.
Definition omega_post (k_bnn log_p : ndarray) (kw : Kwargs) (lo hi : float)
  : M RNG pyval := ret RNG (PyArray omega).
Definition mcmc_samples (chain_path : string) (kw : Kwargs) : M RNG ndarray :=
  ret RNG omega.
Definition log_weights (k_bnn_i omega_samples log_p_i : ndarray) : result ndarray :=
  Ok log_p_i.

Definition kde (dataset : ndarray) : result KDE := Ok dataset.
Definition pdf_of (k : KDE) (points : ndarray) : result (list float) :=
  Ok (repeat 1%float (hd 0 (shape points))).
Definition uniform_pdf (points : ndarray) : result (list float) :=
  Ok (repeat 1%float (hd 0 (shape points))).
Definition rng_of_seed (z : Z) : RNG := Z.to_nat z.
Definition choice (g : RNG) (pop : list nat) (p : list float) (size : nat)
  : result (list nat) :=
  if size <=? length pop then Ok (firstn size (rev pop)) else Raise ValueError.

Definition ex (i : nat) (y : float) : Example Graph :=
  {| ex_graph := i; ex_y := [y] |}.

Definition test_set : Dataset Graph :=
  CosmoDC2Graph Graph [ex 0 0.5; ex 1 (-0.5); ex 2 1]%float.
Definition train_set : Dataset Graph :=
  CosmoDC2Graph Graph [ex 10 1; ex 11 2]%float.
Definition large_train_set : Dataset Graph :=
  CosmoDC2Graph Graph [ex 10 1; ex 11 2; ex 12 3; ex 13 4]%float.

Definition loader_of (d : Dataset Graph) (s : Sampler) : DataLoader Graph :=
  {| dl_dataset := d; dl_batch_size := 2; dl_sampler := s; dl_drop_last := true |}.

(** No dataset loaded yet. *)
Definition blank : InferenceManager Graph :=
  {| seed := 123; out_dir := "out"; batch_size := 2; Y_dim := 0;
     Y_mean := []; Y_std := [];
     train_dataset := CosmoDC2Graph Graph []; train_loader := loader_of (CosmoDC2Graph Graph []) RandomSampler;
     val_dataset := CosmoDC2Graph Graph []; val_loader := loader_of (CosmoDC2Graph Graph []) SequentialSampler |}.

(** Two training and three test examples, batches of two, one target. *)
Definition manager : InferenceManager Graph :=
  {| seed := 123; out_dir := "out"; batch_size := 2; Y_dim := 1;
     Y_mean := [0.5]%float; Y_std := [2]%float;
     train_dataset := train_set; train_loader := loader_of train_set RandomSampler;
     val_dataset := test_set; val_loader := loader_of test_set SequentialSampler |}.

(** Four training and three test examples. *)
Definition manager_large_train : InferenceManager Graph :=
  {| seed := 123; out_dir := "out"; batch_size := 2; Y_dim := 1;
     Y_mean := [0.5]%float; Y_std := [2]%float;
     train_dataset := large_train_set;
     train_loader := loader_of large_train_set RandomSampler;
     val_dataset := test_set; val_loader := loader_of test_set SequentialSampler |}.

(** The same test set under another seed and output directory. *)
Definition manager_other_seed : InferenceManager Graph :=
  {| seed := 7; out_dir := "elsewhere/"; batch_size := 2; Y_dim := 1;
     Y_mean := [0.5]%float; Y_std := [2]%float;
     train_dataset := train_set; train_loader := loader_of train_set RandomSampler;
     val_dataset := test_set; val_loader := loader_of test_set SequentialSampler |}.

Definition fresh : World RNG := {| fs := ∅; torch_rng := 0; calls := [] |}.
Definition used : World RNG := {| fs := ∅; torch_rng := 41; calls := [EvForward] |}.

Definition bnn_kappa := get_bnn_kappa Graph RNG Pred randperm multinomial forward rows sample.
Definition true_kappa := get_true_kappa Graph RNG randperm multinomial tensor_mul tensor_add.
Definition log_p_k_given_omega_int :=
  get_log_p_k_given_omega_int Graph RNG Pred randperm multinomial tensor_mul tensor_add
                              forward rows sample log_p.
Definition run_mcmc :=
  run_mcmc_for_omega_post Graph RNG Pred Kwargs randperm multinomial tensor_mul tensor_add
                          forward rows sample
                          log_p omega_post.
Definition kappa_log_weights :=
  get_kappa_log_weights Graph RNG Pred Kwargs randperm multinomial tensor_mul tensor_add
                        forward rows sample
                        log_p mcmc_samples log_weights.
Definition reset_val :=
  reset_val_dataset Graph RNG randperm multinomial tensor_mul tensor_add
                    KDE kde pdf_of rng_of_seed choice.

Definition count_calls (ev : event) (w : World RNG) : nat :=
  length (List.filter (event_eqb ev) (calls RNG w)).

Example manager_loaded :
  (m <- load_dataset_train Graph blank train_set 2 1 [0.5]%float [2]%float None None ;;
   load_dataset_test Graph m test_set 2) = Ok manager.
Proof. reflexivity. Qed.

(** *** get_bnn_kappa on three test examples in batches of two *)

Definition k_bnn_expected : ndarray :=
  {| shape := [3; 1; 4];
     flat := [Flt 10.5; Flt 11.5; Flt 30.5; Flt 31.5;
              Flt 110.5; Flt 111.5; Flt 130.5; Flt 131.5;
              Uninit; Uninit; Uninit; Uninit]%float |}.

(** C2, at a failing input.  The loader of [load_dataset] drops the last,
    shorter batch: the third example is never passed to the model and its
    row of the returned array is the unwritten memory of [np.empty]. *)
Theorem get_bnn_kappa_skips_last_batch :
  fst (bnn_kappa manager 2 2 fresh) = Ok k_bnn_expected
  /\ shape k_bnn_expected = [dataset_len Graph test_set; Y_dim Graph manager; 2 * 2]
  /\ row_written k_bnn_expected 0 = true
  /\ row_written k_bnn_expected 1 = true
  /\ row_written k_bnn_expected 2 = false.
Proof. vm_compute. repeat split; reflexivity. Qed.

(** After [reset_val_dataset] the loader keeps the shorter batch, but the
    row offset [i * B] is taken from that batch's own size: its samples
    land on row 1 and the last row stays unwritten. *)
Example get_bnn_kappa_after_reset :
  (m <- fst (reset_val manager uniform_pdf 3 fresh) ;; fst (bnn_kappa m 2 1 fresh))
  = Ok {| shape := [3; 1; 2];
          flat := [Flt 210.5; Flt 211.5; Flt 30.5; Flt 31.5; Uninit; Uninit]%float |}.
Proof. vm_compute. reflexivity. Qed.

(** *** get_true_kappa on the training set *)

(** C3, at two failing inputs.  The array is allocated with the length of
    the test set.  With two training and three test examples it has three
    rows, the last unwritten; with four training examples the second batch
    no longer fits and the assignment raises ValueError. *)
Theorem get_true_kappa_train_has_test_length :
  fst (true_kappa manager true EmptyString true fresh)
  = Ok {| shape := [3; 1]; flat := [Flt 4.5; Flt 2.5; Uninit]%float |}
  /\ dataset_len Graph (train_dataset Graph manager) = 2
  /\ fst (true_kappa manager_large_train true EmptyString true fresh) = Raise ValueError.
Proof. vm_compute. repeat split; reflexivity. Qed.

(** *** get_kappa_log_weights called twice *)

Definition first_call := kappa_log_weights manager 0 2 2 "chain.h5" tt fresh.
Definition second_call := kappa_log_weights manager 0 2 2 "chain.h5" tt (snd first_call).

(** C1, at a failing input.  The first call leaves [log_weights_0.npy]
    behind; the second call, with the same key, runs
    [iutils.get_kappa_log_weights] again.  The forward passes behind
    [k_bnn.npy] are not repeated. *)
Theorem get_kappa_log_weights_computes_twice :
  returns (fst first_call) = true
  /\ fst second_call = fst first_call
  /\ fs RNG (snd first_call) !! log_weights_path Graph manager 0
     = Some {| shape := [4]; flat := [Flt 10.5; Flt 11.5; Flt 30.5; Flt 31.5]%float |}
  /\ count_calls EvLogWeights (snd first_call) = 1
  /\ count_calls EvLogWeights (snd second_call) = 2
  /\ count_calls EvForward (snd first_call) = 2
  /\ count_calls EvForward (snd second_call) = 2.
Proof. vm_compute. repeat split; reflexivity. Qed.

(** *** run_mcmc_for_omega_post *)

(** On the test bed [iutils.get_omega_post] hands back the posterior
    samples, and the caller of [run_mcmc_for_omega_post] still gets [None]. *)
Lemma run_mcmc_drops_the_samples :
  fst (omega_post k_bnn_expected k_bnn_expected tt 0%float 1%float fresh)
  = Ok (PyArray omega)
  /\ fst (run_mcmc manager 2 2 tt 0%float 1%float fresh) = Ok PyNone.
Proof. vm_compute. split; reflexivity. Qed.

Lemma run_mcmc_returns_None_witness :
  PyNone = PyNone
  /\ exists k_bnn w1 log_p w2 post,
       bnn_kappa manager 2 2 fresh = (Ok k_bnn, w1)
       /\ log_p_k_given_omega_int manager 2 2 w1 = (Ok log_p, w2)
       /\ bindM RNG (record RNG EvOmegaPost)
                 (fun _ => omega_post k_bnn log_p tt 0%float 1%float) w2
          = (Ok post, snd (run_mcmc manager 2 2 tt 0%float 1%float fresh)).
Proof.
  apply (proj1 (run_mcmc_returns_None Graph RNG Pred Kwargs randperm multinomial
                  tensor_mul tensor_add forward rows sample log_p omega_post
                  manager 2 2 tt 0%float 1%float fresh PyNone
                  (snd (run_mcmc manager 2 2 tt 0%float 1%float fresh)))).
  vm_compute. reflexivity.
Defined.

(** *** reset_val_dataset under two seeds *)

Lemma choice_without_replacement : without_replacement RNG choice.
Proof.
  intros g pop p size l Hpop. unfold choice.
  destruct (size <=? length pop) eqn:Hsize; [|discriminate].
  intros H; inversion H; subst; clear H.
  apply Nat.leb_le in Hsize.
  assert (Hrev : List.NoDup (rev pop)) by now apply NoDup_rev.
  split; [|split].
  - rewrite <- (firstn_skipn size (rev pop)) in Hrev.
    now apply NoDup_app_remove_r in Hrev.
  - rewrite length_firstn, length_rev. lia.
  - intros i Hi. apply in_rev.
    rewrite <- (firstn_skipn size (rev pop)). apply in_or_app. now left.
Qed.

(** The test set loaded in one batch of three, so that every row of the
    label array is written; once as it is and once under another seed and
    output directory. *)
Definition in_one_batch (m : InferenceManager Graph) : InferenceManager Graph :=
  {| seed := seed Graph m; out_dir := out_dir Graph m; batch_size := 3;
     Y_dim := Y_dim Graph m; Y_mean := Y_mean Graph m; Y_std := Y_std Graph m;
     train_dataset := train_dataset Graph m; train_loader := train_loader Graph m;
     val_dataset := test_set;
     val_loader := {| dl_dataset := test_set; dl_batch_size := 3;
                      dl_sampler := SequentialSampler; dl_drop_last := true |} |}.

Definition manager3 : InferenceManager Graph := in_one_batch manager.
Definition manager3_other : InferenceManager Graph := in_one_batch manager_other_seed.

Lemma test_set_labels_have_width (r : nat) (e : Example Graph) :
  dataset_get Graph test_set r = Ok e -> length (ex_y Graph e) = 1.
Proof.
  destruct r as [|[|[|r]]]; simpl; intros H; try (inversion H; reflexivity).
  destruct r; discriminate.
Qed.

Definition reset_here := reset_val manager uniform_pdf 2 fresh.

Definition select_here := reset_val manager3 uniform_pdf 2 fresh.
Definition select_there := reset_val manager3_other uniform_pdf 2 used.

Definition manager_of (r : result (InferenceManager Graph) * World RNG)
  : InferenceManager Graph :=
  match fst r with Ok m => m | Raise _ => blank end.

(** The selection of a run, when it returns. *)
Definition selection_of (r : result (InferenceManager Graph) * World RNG)
  : result (list nat) :=
  m <- fst r ;; Ok (selected_indices Graph m).

Lemma reset_val_dataset_deterministic_witness :
  selected_indices Graph (manager_of select_here)
  = selected_indices Graph (manager_of select_there)
  /\ List.NoDup (selected_indices Graph (manager_of select_here))
  /\ length (selected_indices Graph (manager_of select_here)) = 2
  /\ Forall (fun i => i < 3) (selected_indices Graph (manager_of select_here)).
Proof.
  refine (reset_val_dataset_deterministic Graph RNG randperm multinomial
            tensor_mul tensor_add KDE kde pdf_of rng_of_seed choice
            manager manager_other_seed test_set 3 manager3 manager3_other fresh used
            uniform_pdf 2
            (manager_of select_here) (snd select_here)
            (manager_of select_there) (snd select_there)
            choice_without_replacement eq_refl eq_refl eq_refl _ eq_refl eq_refl eq_refl
            eq_refl eq_refl test_set_labels_have_width eq_refl eq_refl eq_refl eq_refl
            _ _).
  - discriminate.
  - vm_compute. reflexivity.
  - vm_compute. reflexivity.
Defined.

Example selected_under_both_seeds :
  selection_of select_here = Ok [2; 1]
  /\ selection_of select_there = Ok [2; 1]
  /\ seed Graph manager3 <> seed Graph manager3_other
  /\ out_dir Graph manager3 <> out_dir Graph manager3_other.
Proof. repeat split; try reflexivity; discriminate. Qed.

(** An output directory that holds [k_valorig.npy] from an earlier run
    over five examples, and no [subsample_idx.npy]. *)
Definition stale : World RNG :=
  {| fs := {[ "out/k_valorig.npy"%string
              := of_floats [5; 1] [0.1; 0.2; 0.3; 0.4; 0.5]%float ]};
     torch_rng := 0; calls := [] |}.

(** The labels are read from [k_valorig.npy] when it is there: over the
    same test set, density and [n_val], and with no [subsample_idx.npy] in
    either run, the run that finds the file selects other positions than
    the run that computes the labels, and positions beyond the three test
    examples. *)
Lemma reset_val_dataset_follows_cached_labels :
  fs RNG fresh !! subsample_idx_path Graph manager3 = None
  /\ fs RNG stale !! subsample_idx_path Graph manager3 = None
  /\ dataset_len Graph (val_dataset Graph manager3) = 3
  /\ selection_of (reset_val manager3 uniform_pdf 2 fresh) = Ok [2; 1]
  /\ selection_of (reset_val manager3 uniform_pdf 2 stale) = Ok [4; 3]
  /\ selection_of (reset_val manager3 uniform_pdf 4 fresh) = Raise ValueError
  /\ selection_of (reset_val manager3 uniform_pdf 4 stale) = Ok [4; 3; 2; 1].
Proof. vm_compute. repeat split; reflexivity. Qed.

(** *** The cache on the test bed *)

Definition bnn_first := bnn_kappa manager 2 2 fresh.

Lemma get_bnn_kappa_idempotent_witness :
  bnn_kappa manager 50 20 (snd bnn_first) = (Ok k_bnn_expected, snd bnn_first).
Proof.
  apply (get_bnn_kappa_idempotent Graph RNG Pred randperm multinomial forward rows sample
           manager 2 2 fresh k_bnn_expected (snd bnn_first) 50 20).
  vm_compute. reflexivity.
Defined.

Lemma get_bnn_kappa_cache_miss_witness :
  shape k_bnn_expected = [3; 1; 2 * 2]
  /\ fs RNG (snd bnn_first) !! k_bnn_path Graph manager = Some k_bnn_expected
  /\ count_event RNG EvForward (snd bnn_first) = 0 + 3 / 2 * 2.
Proof.
  refine (get_bnn_kappa_cache_miss Graph RNG Pred randperm multinomial forward rows sample
            manager test_set 2 manager 2 2 fresh k_bnn_expected (snd bnn_first) _ _ _).
  - reflexivity.
  - reflexivity.
  - vm_compute. reflexivity.
Defined.

Definition val_labels : ndarray :=
  {| shape := [3; 1]; flat := [Flt 1.5; Flt (-0.5); Uninit]%float |}.
Definition val_first := true_kappa manager false EmptyString true fresh.

Lemma get_true_kappa_idempotent_witness :
  true_kappa manager false EmptyString false (snd val_first) = (Ok val_labels, snd val_first).
Proof.
  apply (get_true_kappa_idempotent Graph RNG randperm multinomial tensor_mul tensor_add manager false EmptyString
           fresh val_labels (snd val_first) false).
  vm_compute. reflexivity.
Defined.

Lemma get_true_kappa_writes_own_file_witness :
  fs RNG (snd (true_kappa manager true EmptyString false fresh)) = fs RNG fresh.
Proof.
  refine (proj1 (get_true_kappa_writes_own_file Graph RNG randperm multinomial tensor_mul tensor_add manager true
                   EmptyString false fresh
                   (fst (true_kappa manager true EmptyString false fresh))
                   (snd (true_kappa manager true EmptyString false fresh)) _) eq_refl).
  apply surjective_pairing.
Defined.

Lemma get_true_kappa_test_rows_witness :
  exists rows,
    comprehension (label_row Graph tensor_mul tensor_add manager test_set)
                  (seq 0 (3 / 2 * 2)) = Ok rows
    /\ val_labels = {| shape := [3; 1];
                       flat := List.map Flt (concat rows)
                               ++ repeat Uninit ((3 - 3 / 2 * 2) * 1) |}
    /\ (true = true
        -> fs RNG (snd val_first) !! true_kappa_path Graph manager false EmptyString
           = Some val_labels).
Proof.
  refine (get_true_kappa_test_rows Graph RNG randperm multinomial tensor_mul tensor_add
            manager test_set 2 manager EmptyString true fresh val_labels (snd val_first)
            eq_refl eq_refl eq_refl test_set_labels_have_width eq_refl _).
  vm_compute. reflexivity.
Defined.

Definition log_p_first := log_p_k_given_omega_int manager 2 2 fresh.
Definition log_p_expected : ndarray :=
  {| shape := [3; 4];
     flat := [Flt 20.5; Flt 21.5; Flt 40.5; Flt 41.5;
              Flt 120.5; Flt 121.5; Flt 140.5; Flt 141.5;
              Uninit; Uninit; Uninit; Uninit]%float |}.

Lemma get_log_p_idempotent_witness :
  log_p_k_given_omega_int manager 50 20 (snd log_p_first)
  = (Ok log_p_expected, snd log_p_first).
Proof.
  apply (get_log_p_idempotent Graph RNG Pred randperm multinomial tensor_mul tensor_add forward rows sample log_p
           manager 2 2 fresh log_p_expected (snd log_p_first) 50 20).
  vm_compute. reflexivity.
Defined.

Lemma get_log_p_cache_miss_witness :
  exists k_train k_bnn,
    fs RNG (snd log_p_first) !! true_kappa_path Graph manager true EmptyString = Some k_train
    /\ fs RNG (snd log_p_first) !! k_bnn_path Graph manager = Some k_bnn
    /\ log_p (squeeze k_train) (squeeze k_bnn) = Ok log_p_expected
    /\ fs RNG (snd log_p_first) !! log_p_path Graph manager = Some log_p_expected.
Proof.
  refine (get_log_p_cache_miss Graph RNG Pred randperm multinomial tensor_mul tensor_add forward rows sample log_p
            manager 2 2 fresh log_p_expected (snd log_p_first) _ _).
  - reflexivity.
  - vm_compute. reflexivity.
Defined.

(** *** get_kappa_log_weights on the test bed *)

Lemma get_kappa_log_weights_out_of_range_witness :
  returns (fst (kappa_log_weights manager 3 2 2 "chain.h5" tt fresh)) = false.
Proof.
  refine (get_kappa_log_weights_out_of_range Graph RNG Pred Kwargs randperm multinomial tensor_mul tensor_add
            forward rows sample log_p mcmc_samples log_weights manager 3 2 2 "chain.h5" tt
            fresh _ _).
  - reflexivity.
  - simpl. lia.
Defined.

Lemma get_kappa_log_weights_recomputes_witness :
  hd_error (calls RNG (snd second_call)) = Some EvLogWeights
  /\ fs RNG (snd second_call) !! log_weights_path Graph manager 0
     = Some {| shape := [4]; flat := [Flt 10.5; Flt 11.5; Flt 30.5; Flt 31.5]%float |}.
Proof.
  refine (get_kappa_log_weights_recomputes Graph RNG Pred Kwargs randperm multinomial tensor_mul tensor_add
            forward rows sample log_p mcmc_samples log_weights manager 0 2 2 "chain.h5" tt
            (snd first_call) _ (snd second_call) _).
  vm_compute. reflexivity.
Defined.

(** *** reset_val_dataset run twice *)

Definition never_asked (points : ndarray) : result (list float) := Raise ValueError.
Definition reset_again := reset_val (manager_of reset_here) never_asked 3 (snd reset_here).

Lemma reset_val_dataset_reuses_selection_witness :
  selected_indices Graph (manager_of reset_again)
  = selected_indices Graph (manager_of reset_here).
Proof.
  refine (reset_val_dataset_reuses_selection Graph RNG randperm multinomial tensor_mul tensor_add KDE kde pdf_of
            rng_of_seed choice manager uniform_pdf 2 fresh (manager_of reset_here)
            (snd reset_here) (manager_of reset_here) never_asked 3
            (manager_of reset_again) (snd reset_again) _ _ _).
  - vm_compute. reflexivity.
  - reflexivity.
  - vm_compute. reflexivity.
Defined.

(** *** get_idx *)

Definition target : list string := ["final_kappa"; "final_gamma1"; "final_gamma2"].

Lemma get_idx_first_positions_witness :
  Forall2 (fun item i => nth_error target i = Some item
                         /\ forall j, j < i -> nth_error target j <> Some item)
          ["final_gamma2"; "final_kappa"] [2; 0].
Proof.
  apply (get_idx_first_positions target ["final_gamma2"; "final_kappa"] [2; 0]).
  reflexivity.
Defined.

Lemma get_idx_missing_item_witness :
  get_idx target ["final_kappa"; "halo_mass"] = Raise ValueError.
Proof.
  apply (get_idx_missing_item target ["final_kappa"; "halo_mass"]).
  apply Exists_cons_tl, Exists_cons_hd. simpl. intros [H|[H|[H|[]]]]; discriminate.
Defined.

End Demo.

End Inference.
